(** * LEED calibration: clustering, lattice model and line fit

    A shallow embedding of [leed/calc_rprime.py] and the properties of its
    clustering and fitting pipeline.

    Numbers.  The program computes on IEEE doubles through numpy; here a
    double is a real number ([R]) and every operation is exact: rounding
    is outside the model, and a comparison such as [error < 0.1] is the
    comparison of the exact values.  The one place where the program can
    produce an inf or a nan from finite data, the linearizing of a sine
    of absolute value 1 or more, is modelled: [finite_u] tells those
    sines apart and [np.polyfit] fails on them ([polyfit_array]).

    Control.  A Python call either returns a value or raises; [result]
    keeps the two apart.  A function that falls off its end returns
    Python's [None], modelled by [option] inside [Ok]. *)

From Stdlib Require Import Reals List Lra Lia ZArith Bool Arith.
Import ListNotations.
Open Scope R_scope.

(** ** Outcomes of a Python call *)

Inductive exn : Type :=
| TypeError
| ValueError
| IndexError
| LinAlgError.

(** [Unmodelled] is the outcome of the one numpy call whose result is
    left open here: [np.polyfit] on points whose abscissas are all equal
    and not zero (see [polyfit]).  [calc_rprime] never reaches it, the
    seed being always among the points. *)
Inductive result (A : Type) : Type :=
| Ok (a : A)
| Raise (e : exn)
| Unmodelled.

Arguments Ok {A} a.
Arguments Raise {A} e.
Arguments Unmodelled {A}.

Definition bind {A B : Type} (m : result A) (f : A -> result B) : result B :=
  match m with
  | Ok a => f a
  | Raise e => Raise e
  | Unmodelled => Unmodelled
  end.

Notation "x <- m ;; k" := (bind m (fun x => k))
  (at level 61, m at next level, right associativity).
Notation "' p <- m ;; k" := (bind m (fun p => k))
  (at level 61, p pattern, m at next level, right associativity).

(** ** Comparisons on doubles, as booleans *)

Definition Rltb (x y : R) : bool := if Rlt_dec x y then true else false.
Definition Rleb (x y : R) : bool := if Rle_dec x y then true else false.
Definition Reqb (x y : R) : bool := if Req_dec_T x y then true else false.

(** ** Library functions the program calls *)

(** Python's builtin [min] on a sequence: the first smallest element;
    [ValueError] on an empty one. *)
Fixpoint min_from (m : R) (l : list R) : R :=
  match l with
  | [] => m
  | y :: t => min_from (if Rltb y m then y else m) t
  end.

Definition py_min (l : list R) : result R :=
  match l with
  | [] => Raise ValueError
  | y :: t => Ok (min_from y t)
  end.

(** Indexing a Python list: [IndexError] past the end. *)
Definition py_index {A : Type} (l : list A) (j : nat) : result A :=
  match nth_error l j with
  | Some a => Ok a
  | None => Raise IndexError
  end.

(** [np.median]: the middle of the sorted values, or the mean of the two
    middle ones.  On an empty array numpy yields NaN; the model has no
    NaN and yields [0] there. *)
Fixpoint insert_sorted (v : R) (l : list R) : list R :=
  match l with
  | [] => [v]
  | y :: t => if Rleb v y then v :: y :: t else y :: insert_sorted v t
  end.

Fixpoint sort (l : list R) : list R :=
  match l with
  | [] => []
  | y :: t => insert_sorted y (sort t)
  end.

Definition median (l : list R) : R :=
  let s := sort l in
  let n := length s in
  if Nat.even n
  then (nth (n / 2 - 1) s 0 + nth (n / 2) s 0) / 2
  else nth (n / 2) s 0.

(** ** The lattice model: [calc_x_and_sintheta] *)

Inductive kind : Type := Cu | Ag | Au.
Inductive surface : Type := S110 | S111.

Record base_type : Type := { bt_kind : kind; bt_surface : surface }.

(** The table [a] of lattice constants. *)
Definition a (k : kind) : R :=
  match k with
  | Cu => 3.61496
  | Ag => 4.0862
  | Au => 4.07864
  end.

(** [x // 100] on doubles. *)
Definition floor_div (x y : R) : R := IZR (Zfloor (x / y)).

(** The Au loop, [for j in range(len(cluster_theta))], from index [j] on;
    [ts] is what is left of [cluster_theta]. *)
Fixpoint au_loop (theta_baseline0 : R) (k : kind) (cluster : list (list R))
    (voltage : R) (j : nat) (ts : list (list R)) : result (option (R * R)) :=
  match ts with
  | [] => Ok None
  | t :: ts' =>
      m <- py_min t ;;
      let error := Rabs (theta_baseline0 - m) in
      if Rltb error 0.1 then
        c <- py_index cluster j ;;
        let x := median c in
        let lamb := sqrt (150.4 / voltage) in
        let n := floor_div (x / lamb) 100 + 1 in
        let sintheta := n / (2 * a k) * lamb in
        if Rltb 2 n then au_loop theta_baseline0 k cluster voltage (S j) ts'
        else Ok (Some (x, sintheta))
      else au_loop theta_baseline0 k cluster voltage (S j) ts'
  end.

(** The inner Ag/Cu loop, [for k in range(2)], from slot [k] on; [bs] is
    what is left of [theta_baseline].  [None] when no slot matched. *)
Fixpoint slot_loop (kd : kind) (cluster : list (list R)) (voltage : R)
    (j : nat) (m : R) (k : nat) (bs : list R) : result (option (R * R)) :=
  match bs with
  | [] => Ok None
  | b :: bs' =>
      let error := Rabs (b - m) in
      if Rltb error 0.1 then
        let n := if Nat.eqb k 0 then 1 else sqrt 2 in
        let sintheta := n * sqrt (150.4 / voltage) / a kd in
        c <- py_index cluster j ;;
        Ok (Some (median c, sintheta))
      else slot_loop kd cluster voltage j m (S k) bs'
  end.

(** The outer Ag/Cu loop, with its [if j > 2: break]. *)
Fixpoint other_loop (theta_baseline : list R) (kd : kind)
    (cluster : list (list R)) (voltage : R) (j : nat) (ts : list (list R))
    : result (option (R * R)) :=
  match ts with
  | [] => Ok None
  | t :: ts' =>
      if Nat.ltb 2 j then Ok None
      else
        m <- py_min t ;;
        r <- slot_loop kd cluster voltage j m 0 theta_baseline ;;
        match r with
        | Some s => Ok (Some s)
        | None => other_loop theta_baseline kd cluster voltage (S j) ts'
        end
  end.

(** [calc_x_and_sintheta].  [min(cluster_theta[j])] is evaluated once per
    cluster in the loops above; the source evaluates it again for each
    slot, with the same value.  The arguments [xs] and [sinthetas] of the
    source are never read and are left out.  [Ok None] is the function
    falling off its end. *)
Definition calc_x_and_sintheta (bt : base_type) (cluster cluster_theta : list (list R))
    (voltage : R) : result (option (R * R)) :=
  let theta_baseline0 := 1 * 100 in
  let theta_baseline1 := 1 * 100 in
  match bt_surface bt with
  | S111 =>
      let theoretical_d := (a (bt_kind bt) / sqrt 2) * sqrt 3 / 2 in
      let sintheta := sqrt (150.4 / voltage) / theoretical_d in
      c <- py_index cluster 0 ;;
      Ok (Some (median c, sintheta))
  | S110 =>
      match bt_kind bt with
      | Au =>
          b0 <- (if Reqb theta_baseline0 100
                 then (t0 <- py_index cluster_theta 0 ;; py_min t0)
                 else Ok theta_baseline0) ;;
          au_loop b0 Au cluster voltage 0 cluster_theta
      | kd =>
          b0 <- (if Reqb theta_baseline0 100
                 then (t0 <- py_index cluster_theta 0 ;; py_min t0)
                 else Ok theta_baseline0) ;;
          b1 <- (if Nat.ltb 1 (length cluster_theta)
                 then (if Reqb theta_baseline1 100
                       then (t1 <- py_index cluster_theta 1 ;; py_min t1)
                       else Ok theta_baseline1)
                 else Ok theta_baseline1) ;;
          other_loop [b0; b1] kd cluster voltage 0 cluster_theta
      end
  end.

(** ** Clustering *)

(** [np.histogram(x, bins=100, range=(0, 500))]: the edges are
    [linspace(0, 500, 101)], so edge [j] is [5 j]; a bin is closed on the
    left and open on the right, except the last one, which is closed on
    both sides.  Values outside [[0, 500]] are counted nowhere. *)
Definition bins (j : nat) : R := IZR (5 * Z.of_nat j).

Definition in_bin (j : nat) (v : R) : bool :=
  Rleb (bins j) v && (if Nat.eqb j 99 then Rleb v (bins 100) else Rltb v (bins (S j))).

Definition freq (x : list R) (j : nat) : nat := length (filter (in_bin j) x).

(** The first loop of [clustering]: the non-empty bins, in increasing
    order, each as [bins[j], freq[j]]. *)
Definition bin_freqs_of (x : list R) : list (R * nat) :=
  flat_map (fun j => if Nat.eqb (freq x j) 0 then [] else [(bins j, freq x j)])
           (seq 0 100).

(** Boolean-mask indexing, [arr[mask]]: numpy raises [IndexError] when
    the mask and the array differ in length. *)
Fixpoint select {A : Type} (mask : list bool) (arr : list A) : list A :=
  match mask, arr with
  | b :: m, v :: t => if b then v :: select m t else select m t
  | _, _ => []
  end.

Definition mask_index {A : Type} (arr : list A) (mask : list bool) : result (list A) :=
  if Nat.eqb (length arr) (length mask) then Ok (select mask arr)
  else Raise IndexError.

Definition delta_bin : R := 10.

(** The variables the second loop of [clustering] updates. *)
Record walk : Type := {
  w_cluster : list (list R);
  w_cluster_theta : list (list R);
  w_prev_bin : R;
  w_start : R
}.

Definition walk_init : walk :=
  {| w_cluster := []; w_cluster_theta := []; w_prev_bin := 0; w_start := 0 |}.

(** The mask [(x >= start) & (x <= end + delta_bin)]. *)
Definition x_range_of (x : list R) (start end_ : R) : list bool :=
  map (fun v => Rleb start v && Rleb v (end_ + delta_bin)) x.

(** One iteration of [for j in range(len(bin_freqs))]. *)
Definition walk_step (x theta : list R) (bin_freqs : list (R * nat))
    (st : walk) (j : nat) : result walk :=
  bf <- py_index bin_freqs j ;;
  let current_bin := fst bf in
  let last := Nat.eqb j (length bin_freqs - 1) in
  if Rltb (w_prev_bin st + delta_bin) current_bin || last then
    st' <- (if negb (Nat.eqb j 0) then
              end_ <- (if last then Ok current_bin
                       else (p <- py_index bin_freqs (j - 1) ;; Ok (fst p))) ;;
              let x_range := x_range_of x (w_start st) end_ in
              if Nat.ltb 1 (length (select x_range x)) then
                ts <- mask_index theta x_range ;;
                Ok {| w_cluster := w_cluster st ++ [select x_range x];
                      w_cluster_theta := w_cluster_theta st ++ [ts];
                      w_prev_bin := w_prev_bin st;
                      w_start := w_start st |}
              else Ok st
            else Ok st) ;;
    Ok {| w_cluster := w_cluster st';
          w_cluster_theta := w_cluster_theta st';
          w_prev_bin := current_bin;
          w_start := current_bin |}
  else
    Ok {| w_cluster := w_cluster st;
          w_cluster_theta := w_cluster_theta st;
          w_prev_bin := current_bin;
          w_start := w_start st |}.

Fixpoint walk_loop (x theta : list R) (bin_freqs : list (R * nat))
    (st : walk) (js : list nat) : result walk :=
  match js with
  | [] => Ok st
  | j :: js' =>
      st' <- walk_step x theta bin_freqs st j ;;
      walk_loop x theta bin_freqs st' js'
  end.

(** [itertools.combinations(t, 2)], in the order it yields. *)
Fixpoint combinations2 (t : list R) : list (R * R) :=
  match t with
  | [] => []
  | v :: t' => map (pair v) t' ++ combinations2 t'
  end.

(** The opposition test of the third loop. *)
Definition opposed (k : R * R) : bool :=
  let error := PI - Rabs (fst k - snd k) in
  Rltb (Rabs error) 0.1.

(** [l[j] = v]. *)
Fixpoint upd {A : Type} (j : nat) (v : A) (l : list A) : list A :=
  match l, j with
  | [], _ => []
  | _ :: t, O => v :: t
  | y :: t, S j' => y :: upd j' v t
  end.

(** The inner loop, [for k in itertools.combinations(cluster_theta[j], 2)].
    The combinations are those of [cluster_theta[j]] as it is when the
    loop starts. *)
Definition pair_step (j : nat) (st : list bool * list (list R)) (k : R * R)
    : list bool * list (list R) :=
  if opposed k then (upd j true (fst st), upd j [fst k; snd k] (snd st))
  else st.

Definition valid_step (st : list bool * list (list R)) (j : nat)
    : list bool * list (list R) :=
  fold_left (pair_step j) (combinations2 (nth j (snd st) [])) st.

(** The third loop: [valid_cluster] starts as [np.zeros(len(cluster))]. *)
Definition valid_loop (n : nat) (cluster_theta : list (list R))
    : list bool * list (list R) :=
  fold_left valid_step (seq 0 (length cluster_theta)) (repeat false n, cluster_theta).

(** [clustering]: [Ok None] is the return of [None, None]. *)
Definition clustering (x theta : list R)
    : result (option (list (list R) * list (list R))) :=
  let bin_freqs := bin_freqs_of x in
  st <- walk_loop x theta bin_freqs walk_init (seq 0 (length bin_freqs)) ;;
  let cluster := w_cluster st in
  let '(valid_cluster, cluster_theta) := valid_loop (length cluster) (w_cluster_theta st) in
  let cluster' := select valid_cluster cluster in
  let cluster_theta' := select valid_cluster cluster_theta in
  if Nat.eqb (length cluster') 0 then Ok None
  else Ok (Some (cluster', cluster_theta')).

(** ** The line fit *)

Fixpoint sum (l : list R) : R :=
  match l with
  | [] => 0
  | v :: t => v + sum t
  end.

(** Element-wise product of two arrays of one length. *)
Fixpoint dot (x y : list R) : R :=
  match x, y with
  | u :: x', v :: y' => u * v + dot x' y'
  | _, _ => 0
  end.

(** [np.polyfit(x, y, 1)] on finite values: slope and intercept of the
    least-squares line through the points.  numpy refuses an empty [x]
    and arrays of different lengths with [TypeError].  It scales each
    column of the design matrix by its norm before solving: when every
    [x] is 0 the column of the [x] has norm 0, the scaling gives 0/0 and
    the solver fails with [LinAlgError].  When the [x] are all equal and
    not zero the system is rank deficient and numpy hands back a
    minimum-norm solution with a warning, whose value is the solver's:
    [Unmodelled]. *)
Definition polyfit (x y : list R) : result (R * R) :=
  if Nat.eqb (length x) 0 then Raise TypeError
  else if negb (Nat.eqb (length x) (length y)) then Raise TypeError
  else if forallb (fun u => Reqb u 0) x then Raise LinAlgError
  else
    let n := INR (length x) in
    let det := n * dot x x - sum x * sum x in
    if Reqb det 0 then Unmodelled
    else
      let slope := (n * dot x y - sum x * sum y) / det in
      Ok (slope, (sum y - slope * sum x) / n).

(** [sinthetas / np.sqrt(1 - sinthetas ** 2)], element by element, where
    the double it gives is finite. *)
Definition linearize (s : R) : R := s / sqrt (1 - s ^ 2).

(** Whether that double is finite.  It is when sin^2 < 1; for
    sin = 1 or -1 numpy divides by zero and gives inf, for |sin| > 1 it
    takes the square root of a negative number and gives nan. *)
Definition finite_u (s : R) : bool := Rltb (s ^ 2) 1.

(** [np.polyfit(x, y, 1)] on an array [x] of doubles; [finite] tells
    whether all of them are finite.  The checks on the shapes come first;
    on an inf or a nan the solver fails with [LinAlgError]. *)
Definition polyfit_array (finite : bool) (x y : list R) : result (R * R) :=
  if finite then polyfit x y
  else if Nat.eqb (length x) 0 then Raise TypeError
  else if negb (Nat.eqb (length x) (length y)) then Raise TypeError
  else Raise LinAlgError.

(** [np.abs(rprime*x+intercept - xs) > 50], element by element. *)
Definition outlier_mask (rprime intercept : R) (x xs : list R) : list bool :=
  map (fun p => Rltb 50 (Rabs (rprime * fst p + intercept - snd p))) (combine x xs).

(** [np.insert(arr[~outlier], 0, 0)]. *)
Definition reseed (outlier : list bool) (arr : list R) : list R :=
  0 :: select (map negb outlier) arr.

(** [fit_xs_and_sinthetas].  The third masked array, [sinthetas], is
    rebuilt by the source and not read again. *)
Definition fit_xs_and_sinthetas (xs sinthetas : list R) : result (R * R) :=
  let x := map linearize sinthetas in
  '(rprime, intercept) <- polyfit_array (forallb finite_u sinthetas) x xs ;;
  let outlier := outlier_mask rprime intercept x xs in
  polyfit (reseed outlier x) (reseed outlier xs).

(** ** The pipeline: [calc_rprime] *)

(** One image as the loop sees it: what [detect] found, already in polar
    form ([cv2.cartToPolar] gives the radii [x] and the angles [theta]),
    [None] when [detect] found nothing; and the beam voltage. *)
Record image : Type := {
  polar : option (list R * list R);
  voltage_of : R
}.

(** The body of [for i in range(len(image_paths))].  The unpacking
    [x, sintheta = calc_x_and_sintheta(...)] raises [TypeError] when the
    call returned [None]. *)
Definition image_step (bt : base_type) (acc : list R * list R) (img : image)
    : result (list R * list R) :=
  let '(xs, sinthetas) := acc in
  match polar img with
  | None => Ok (xs, sinthetas)
  | Some (x, theta) =>
      r <- clustering x theta ;;
      match r with
      | None => Ok (xs, sinthetas)
      | Some (cluster, cluster_theta) =>
          s <- calc_x_and_sintheta bt cluster cluster_theta (voltage_of img) ;;
          match s with
          | None => Raise TypeError
          | Some (x', sintheta) => Ok (xs ++ [x'], sinthetas ++ [sintheta])
          end
      end
  end.

Fixpoint image_loop (bt : base_type) (acc : list R * list R) (imgs : list image)
    : result (list R * list R) :=
  match imgs with
  | [] => Ok acc
  | img :: imgs' =>
      acc' <- image_step bt acc img ;;
      image_loop bt acc' imgs'
  end.

(** [calc_rprime] without its plotting: the samples start as the seed
    [xs = [0]], [sinthetas = [0]]. *)
Definition calc_rprime (bt : base_type) (imgs : list image) : result R :=
  '(xs, sinthetas) <- image_loop bt ([0], [0]) imgs ;;
  '(rprime, intercept) <- fit_xs_and_sinthetas xs sinthetas ;;
  Ok rprime.

(** ** What the properties are stated with *)

(** The electron wavelength at a beam voltage. *)
Definition lambda (voltage : R) : R := sqrt (150.4 / voltage).

(** The diffraction order the Au branch assigns to a radius. *)
Definition au_order (voltage x : R) : R := floor_div (x / lambda voltage) 100 + 1.

(** The Au acceptance rule for a cluster with radii [c] and angles [t],
    against the reference angle [ref]. *)
Definition au_accepts (ref voltage : R) (c t : list R) : Prop :=
  exists m, py_min t = Ok m /\ Rabs (ref - m) < 0.1 /\ au_order voltage (median c) <= 2.

(** A cluster list as [calc_x_and_sintheta] receives it from
    [clustering]: as many angle sequences as radius sequences, none of
    the angle sequences empty. *)
Definition well_formed (cluster cluster_theta : list (list R)) : Prop :=
  length cluster = length cluster_theta /\ Forall (fun t => t <> []) cluster_theta.

(** What the third loop of [clustering] does to one cluster: the flag it
    ends with and the angle sequence it ends with. *)
Definition judge_step (st : bool * list R) (k : R * R) : bool * list R :=
  if opposed k then (true, [fst k; snd k]) else st.

Definition judge (t : list R) : bool * list R :=
  fold_left judge_step (combinations2 t) (false, t).

(** What the second loop keeps true of the clusters it has built. *)
Definition walk_inv (st : walk) : Prop :=
  length (w_cluster st) = length (w_cluster_theta st)
  /\ Forall (fun c => (2 <= length c)%nat) (w_cluster st).

(** The sum of squared residuals of the line [x = m u + c] on the points
    [(u, x)]: what a least-squares fit makes smallest. *)
Fixpoint sse (us xs : list R) (m c : R) : R :=
  match us, xs with
  | u :: us', v :: xs' => (m * u + c - v) ^ 2 + sse us' xs' m c
  | _, _ => 0
  end.

(** The two-pass scheme in the words of its description, on the samples
    [(x, sin theta)].  Nothing below is taken from the code. *)

(** The linearizing variable u = sin(theta) / sqrt(1 - sin(theta)^2). *)
Definition u_of (sample : R * R) : R :=
  snd sample / sqrt (1 - snd sample * snd sample).

(** The points (u, x) the lines are fitted to. *)
Definition points_of (samples : list (R * R)) : list (R * R) :=
  map (fun smp => (u_of smp, fst smp)) samples.

(** The sum of the squared residuals of the line [x = m u + c]. *)
Fixpoint residuals2 (points : list (R * R)) (m c : R) : R :=
  match points with
  | [] => 0
  | p :: ps => (m * fst p + c - snd p) ^ 2 + residuals2 ps m c
  end.

(** [(m, c)] is the least-squares line of the points: no line has a
    smaller sum of squared residuals, and no other line has as small a
    one. *)
Definition least_squares_line (points : list (R * R)) (m c : R) : Prop :=
  (forall m' c', residuals2 points m c <= residuals2 points m' c')
  /\ (forall m' c', residuals2 points m' c' <= residuals2 points m c -> m' = m /\ c' = c).

(** The points that are not discarded: those with
    |r0 u + i0 - x| > 50 are. *)
Definition retained (rprime0 intercept0 : R) (points : list (R * R)) : list (R * R) :=
  filter (fun p => negb (Rltb 50 (Rabs (rprime0 * fst p + intercept0 - snd p)))) points.

(** [(r, i)] is what the two passes give on the samples. *)
Definition two_pass_result (samples : list (R * R)) (r i : R) : Prop :=
  exists rprime0 intercept0,
    least_squares_line (points_of samples) rprime0 intercept0
    /\ least_squares_line ((0, 0) :: retained rprime0 intercept0 (points_of samples)) r i.

(** What one image adds to the samples: nothing ([None]) or one sample. *)
Definition image_sample (bt : base_type) (img : image) : result (option (R * R)) :=
  match polar img with
  | None => Ok None
  | Some (x, theta) =>
      r <- clustering x theta ;;
      match r with
      | None => Ok None
      | Some (cluster, cluster_theta) =>
          s <- calc_x_and_sintheta bt cluster cluster_theta (voltage_of img) ;;
          match s with
          | None => Raise TypeError
          | Some smp => Ok (Some smp)
          end
      end
  end.

(** An image is usable when it yields a sample. *)
Definition usable (bt : base_type) (img : image) : bool :=
  match image_sample bt img with
  | Ok (Some _) => true
  | _ => false
  end.

(** The samples a run collects, in the order of the images. *)
Definition collected (bt : base_type) (imgs : list image) : list (R * R) :=
  flat_map (fun img => match image_sample bt img with
                       | Ok (Some smp) => [smp]
                       | _ => []
                       end) imgs.

(** Images the properties are tried on. *)

(** A ring seen at radii 300 and 306, at 150.4 V. *)
Definition ring_image : image :=
  {| polar := Some ([300; 306], [0; PI]); voltage_of := 150.4 |}.

(** An image in which [detect] found nothing. *)
Definition blank_image : image := {| polar := None; voltage_of := 100 |}.

(** A ring seen at radii 100 and 106, at 150.4 V. *)
Definition inner_ring_image : image :=
  {| polar := Some ([100; 106], [0; PI]); voltage_of := 150.4 |}.

(** An image whose radii and angles come in equal number, as
    [cv2.cartToPolar] returns them. *)
Definition shaped (img : image) : Prop :=
  match polar img with
  | None => True
  | Some (x, theta) => length x = length theta
  end.

(** * Properties *)

(** ** Comparisons *)

Lemma Rltb_true (x y : R) : x < y -> Rltb x y = true.
Proof. intros H; unfold Rltb; destruct (Rlt_dec x y); [reflexivity | contradiction]. Qed.

Lemma Rltb_false (x y : R) : y <= x -> Rltb x y = false.
Proof. intros H; unfold Rltb; destruct (Rlt_dec x y); [lra | reflexivity]. Qed.

Lemma Rltb_iff (x y : R) : Rltb x y = true <-> x < y.
Proof. unfold Rltb; destruct (Rlt_dec x y); split; intros; try easy. Qed.

Lemma Rltb_false_iff (x y : R) : Rltb x y = false <-> y <= x.
Proof. unfold Rltb; destruct (Rlt_dec x y); split; intros; try easy; lra. Qed.

Lemma Rleb_true (x y : R) : x <= y -> Rleb x y = true.
Proof. intros H; unfold Rleb; destruct (Rle_dec x y); [reflexivity | contradiction]. Qed.

Lemma Rleb_false (x y : R) : y < x -> Rleb x y = false.
Proof. intros H; unfold Rleb; destruct (Rle_dec x y); [lra | reflexivity]. Qed.

Lemma Rleb_iff (x y : R) : Rleb x y = true <-> x <= y.
Proof. unfold Rleb; destruct (Rle_dec x y); split; intros; try easy. Qed.

Lemma Reqb_refl (x : R) : Reqb x x = true.
Proof. unfold Reqb; destruct (Req_dec_T x x); [reflexivity | contradiction]. Qed.

Lemma Reqb_false (x y : R) : x <> y -> Reqb x y = false.
Proof. intros H; unfold Reqb; destruct (Req_dec_T x y); [contradiction | reflexivity]. Qed.

Lemma Reqb_true (x y : R) : x = y -> Reqb x y = true.
Proof. intros ->; apply Reqb_refl. Qed.

(** ** The lattice model *)

Lemma theoretical_d_eq (k : kind) :
  (a k / sqrt 2) * sqrt 3 / 2 = a k * sqrt 3 / (2 * sqrt 2).
Proof.
  assert (H : sqrt 2 <> 0) by (apply Rgt_not_eq, sqrt_lt_R0; lra).
  field; exact H.
Qed.

(** C6.  Surface '111': for every kind and voltage the sample is the
    median radius of the first cluster and sqrt(150.4/voltage)/d with
    d = a sqrt(3) / (2 sqrt(2)); the lattice constants are those of the
    table; nothing after the first cluster is read. *)
Theorem calc_111_closed_form (k : kind) (voltage : R) (c : list R)
    (cs cluster_theta : list (list R)) :
  calc_x_and_sintheta {| bt_kind := k; bt_surface := S111 |} (c :: cs) cluster_theta voltage
  = Ok (Some (median c, sqrt (150.4 / voltage) / (a k * sqrt 3 / (2 * sqrt 2))))
  /\ (a Cu = 3.61496 /\ a Ag = 4.0862 /\ a Au = 4.07864)
  /\ (forall cs' cluster_theta',
        calc_x_and_sintheta {| bt_kind := k; bt_surface := S111 |} (c :: cs') cluster_theta' voltage
        = calc_x_and_sintheta {| bt_kind := k; bt_surface := S111 |} (c :: cs) cluster_theta voltage).
Proof.
  split; [| split].
  - unfold calc_x_and_sintheta; cbn [bt_surface bt_kind py_index nth_error bind].
    now rewrite theoretical_d_eq.
  - repeat split.
  - intros cs' ct'; reflexivity.
Qed.

Lemma min_from_le (l : list R) : forall m, min_from m l <= m.
Proof.
  induction l as [| y t IH]; intros m; cbn [min_from]; [lra |].
  destruct (Rltb y m) eqn:E.
  - apply Rltb_iff in E. specialize (IH y). lra.
  - apply IH.
Qed.

Lemma py_min_nonempty (t : list R) : t <> [] -> exists m, py_min t = Ok m.
Proof. destruct t as [| y t']; [contradiction | intros _; now exists (min_from y t')]. Qed.

Lemma baseline_fresh : Reqb (1 * 100) 100 = true.
Proof. apply Reqb_true; lra. Qed.

Lemma error_zero (m : R) : Rltb (Rabs (m - m)) 0.1 = true.
Proof. apply Rltb_true. rewrite Rminus_diag, Rabs_R0. lra. Qed.

Lemma other_loop_first (kd : kind) (voltage m0 : R) (bs c t0 : list R)
    (cs ts : list (list R)) :
  py_min t0 = Ok m0 ->
  other_loop (m0 :: bs) kd (c :: cs) voltage 0 (t0 :: ts)
  = Ok (Some (median c, 1 * sqrt (150.4 / voltage) / a kd)).
Proof.
  intros Hm0. cbn [other_loop Nat.ltb Nat.leb]. rewrite Hm0.
  cbn [bind slot_loop]. rewrite error_zero. reflexivity.
Qed.

(** The Ag/Cu branch returns the slot-0 sample of the first cluster. *)
Lemma calc_110_other_sample (kd : kind) (voltage : R) (c : list R)
    (cs cluster_theta : list (list R)) :
  kd <> Au ->
  well_formed (c :: cs) cluster_theta ->
  calc_x_and_sintheta {| bt_kind := kd; bt_surface := S110 |} (c :: cs) cluster_theta voltage
  = Ok (Some (median c, 1 * sqrt (150.4 / voltage) / a kd)).
Proof.
  intros Hk [Hlen Hne].
  destruct cluster_theta as [| t0 ts]; [discriminate Hlen |].
  inversion Hne as [| ? ? Ht0 Hts]; subst.
  destruct (py_min_nonempty t0 Ht0) as [m0 Hm0].
  unfold calc_x_and_sintheta; cbn [bt_surface bt_kind].
  destruct kd; [| | contradiction]; rewrite !baseline_fresh.
  all: cbn [py_index nth_error bind]; rewrite Hm0; cbn [bind].
  all: destruct ts as [| t1 ts']; cbn [length Nat.ltb Nat.leb py_index nth_error bind].
  all: try (inversion Hts as [| ? ? Ht1 _]; subst;
            destruct (py_min_nonempty t1 Ht1) as [m1 ->]; cbn [bind]).
  all: now apply other_loop_first.
Qed.

(** C10.  Ag or Cu, surface '110', a non-empty well-formed cluster list:
    the reference angle of slot 0 is taken from the first cluster in the
    same call, the first cluster matches it with error zero, and the
    sample is (median of the first cluster, 1 sqrt(150.4/voltage) / a);
    so the result is never the sqrt(2) sample of slot 1 and never
    'no sample'. *)
Theorem calc_110_other_first_cluster (kd : kind) (voltage : R) (c : list R)
    (cs cluster_theta : list (list R)) :
  kd <> Au ->
  well_formed (c :: cs) cluster_theta ->
  calc_x_and_sintheta {| bt_kind := kd; bt_surface := S110 |} (c :: cs) cluster_theta voltage
  = Ok (Some (median c, 1 * sqrt (150.4 / voltage) / a kd))
  /\ calc_x_and_sintheta {| bt_kind := kd; bt_surface := S110 |} (c :: cs) cluster_theta voltage
     <> Ok None.
Proof.
  intros Hk Hwf. rewrite (calc_110_other_sample kd voltage c cs cluster_theta Hk Hwf).
  split; [reflexivity | discriminate].
Qed.

Lemma calc_110_other_first_cluster_witness :
  Ag <> Au /\ well_formed [[300; 306]] [[0; PI]]
  /\ calc_x_and_sintheta {| bt_kind := Ag; bt_surface := S110 |}
       [[300; 306]] [[0; PI]] 150.4
     = Ok (Some (median [300; 306], 1 * sqrt (150.4 / 150.4) / a Ag)).
Proof.
  assert (Hk : Ag <> Au) by discriminate.
  assert (Hwf : well_formed [[300; 306]] [[0; PI]]).
  { split; [reflexivity |]. constructor; [discriminate | constructor]. }
  split; [exact Hk |]. split; [exact Hwf |].
  exact (proj1 (calc_110_other_first_cluster Ag 150.4 [300; 306] [] [[0; PI]] Hk Hwf)).
Defined.

(** The Au loop returns the sample of the first cluster the acceptance
    rule takes, or [None] when it takes none. *)
Lemma au_loop_first_accepted (ref voltage : R) (cluster : list (list R)) :
  forall (ts : list (list R)) (j : nat),
    length cluster = (j + length ts)%nat ->
    Forall (fun t => t <> []) ts ->
    exists r, au_loop ref Au cluster voltage j ts = Ok r /\
      match r with
      | Some (x, s) =>
          exists i c t,
            nth_error cluster (j + i) = Some c /\ nth_error ts i = Some t /\
            au_accepts ref voltage c t /\
            x = median c /\
            s = au_order voltage x * lambda voltage / (2 * a Au) /\
            (forall i' c' t', (i' < i)%nat ->
               nth_error cluster (j + i') = Some c' -> nth_error ts i' = Some t' ->
               ~ au_accepts ref voltage c' t')
      | None =>
          forall i c t,
            nth_error cluster (j + i) = Some c -> nth_error ts i = Some t ->
            ~ au_accepts ref voltage c t
      end.
Proof.
  induction ts as [| t ts IH]; intros j Hlen Hne.
  - exists None; split; [reflexivity |].
    intros i c t _ Ht; destruct i; discriminate Ht.
  - inversion Hne as [| ? ? Ht Hts]; subst.
    destruct (py_min_nonempty t Ht) as [m Hm].
    assert (Hc : exists c, nth_error cluster j = Some c).
    { destruct (nth_error cluster j) eqn:E; [eauto |].
      apply nth_error_None in E. cbn [length] in Hlen. lia. }
    destruct Hc as [c Hc].
    destruct (IH (S j)) as [r [Hr Hspec]]; [cbn [length] in Hlen; lia | exact Hts |].
    (* what the remaining clusters give, re-indexed from this one *)
    assert (Hrest : forall (rejected : ~ au_accepts ref voltage c t),
              match r with
              | Some (x, s) =>
                  exists i c0 t0,
                    nth_error cluster (j + i) = Some c0 /\
                    nth_error (t :: ts) i = Some t0 /\
                    au_accepts ref voltage c0 t0 /\
                    x = median c0 /\
                    s = au_order voltage x * lambda voltage / (2 * a Au) /\
                    (forall i' c' t', (i' < i)%nat ->
                       nth_error cluster (j + i') = Some c' ->
                       nth_error (t :: ts) i' = Some t' ->
                       ~ au_accepts ref voltage c' t')
              | None =>
                  forall i c0 t0,
                    nth_error cluster (j + i) = Some c0 ->
                    nth_error (t :: ts) i = Some t0 ->
                    ~ au_accepts ref voltage c0 t0
              end).
    { intros Hrej. destruct r as [[x s] |].
      - destruct Hspec as (i & c0 & t0 & Hc0 & Ht0 & Hacc & Hx & Hs & Hbefore).
        exists (S i), c0, t0. rewrite Nat.add_succ_r. cbn [nth_error].
        repeat split; try assumption.
        intros i' c' t' Hi' Hc' Ht'. destruct i' as [| i'].
        + rewrite Nat.add_0_r in Hc'. cbn [nth_error] in Ht'. congruence.
        + rewrite Nat.add_succ_r in Hc'. cbn [nth_error] in Ht'.
          apply (Hbefore i'); [lia | assumption | assumption].
      - intros i c0 t0 Hc0 Ht0. destruct i as [| i].
        + rewrite Nat.add_0_r in Hc0. cbn [nth_error] in Ht0. congruence.
        + rewrite Nat.add_succ_r in Hc0. cbn [nth_error] in Ht0.
          now apply (Hspec i). }
    cbn [au_loop]. rewrite Hm. cbn [bind].
    destruct (Rltb (Rabs (ref - m)) 0.1) eqn:Eerr.
    + unfold py_index. rewrite Hc. cbn [bind].
      fold (lambda voltage). fold (au_order voltage (median c)).
      destruct (Rltb 2 (au_order voltage (median c))) eqn:En.
      * exists r; split; [exact Hr |]. apply Hrest.
        intros (m' & Hm' & _ & Hle). apply Rltb_iff in En. lra.
      * exists (Some (median c, au_order voltage (median c) / (2 * a Au) * lambda voltage)).
        split; [reflexivity |].
        exists 0%nat, c, t. rewrite Nat.add_0_r. cbn [nth_error].
        repeat split; try assumption.
        -- exists m. apply Rltb_iff in Eerr. apply Rltb_false_iff in En. now repeat split.
        -- unfold a; field; lra.
        -- intros i' c' t' Hi'; lia.
    + exists r; split; [exact Hr |]. apply Hrest.
      intros (m' & Hm' & Herr & _). rewrite Hm in Hm'. injection Hm' as <-.
      apply Rltb_false_iff in Eerr. lra.
Qed.

(** C5.  Au, surface '110', a non-empty well-formed cluster list.  The
    reference angle is the minimum angle of the first cluster.  The call
    returns the sample of the first cluster, in order, whose minimum angle
    is within 0.1 rad of the reference and whose order
    n = (x/lambda) // 100 + 1, lambda = sqrt(150.4/voltage),
    x = median radius, is at most 2; that sample is (x, n lambda / (2a)).
    Every cluster before it fails the rule (an order above 2 included)
    and the loop went on; when no cluster passes, the call returns None. *)
Theorem calc_110_au_first_accepted (voltage : R) (cluster cluster_theta : list (list R)) :
  cluster_theta <> [] ->
  well_formed cluster cluster_theta ->
  exists ref r,
    py_min (hd [] cluster_theta) = Ok ref /\
    calc_x_and_sintheta {| bt_kind := Au; bt_surface := S110 |} cluster cluster_theta voltage
    = Ok r /\
    match r with
    | Some (x, sintheta) =>
        exists j c t,
          nth_error cluster j = Some c /\ nth_error cluster_theta j = Some t /\
          au_accepts ref voltage c t /\
          x = median c /\
          sintheta = au_order voltage x * lambda voltage / (2 * a Au) /\
          (forall i c' t', (i < j)%nat ->
             nth_error cluster i = Some c' -> nth_error cluster_theta i = Some t' ->
             ~ au_accepts ref voltage c' t')
    | None =>
        forall j c t,
          nth_error cluster j = Some c -> nth_error cluster_theta j = Some t ->
          ~ au_accepts ref voltage c t
    end.
Proof.
  intros Hne [Hlen Hall].
  destruct cluster_theta as [| t0 ts]; [contradiction |].
  assert (Ht0 : t0 <> []) by (now inversion Hall).
  destruct (py_min_nonempty t0 Ht0) as [ref Href].
  destruct (au_loop_first_accepted ref voltage cluster (t0 :: ts) 0 Hlen Hall)
    as [r [Hr Hspec]].
  exists ref, r. split; [exact Href |]. split.
  - unfold calc_x_and_sintheta; cbn [bt_surface bt_kind].
    rewrite baseline_fresh. cbn [py_index nth_error bind].
    rewrite Href. exact Hr.
  - exact Hspec.
Qed.

(** ** Lists updated by index *)

Lemma length_upd {A : Type} (v : A) (l : list A) : forall j, length (upd j v l) = length l.
Proof. induction l as [| y t IH]; intros [| j]; cbn; auto. Qed.

Lemma upd_nth {A : Type} (d : A) (l : list A) : forall j, upd j (nth j l d) l = l.
Proof. induction l as [| y t IH]; intros [| j]; cbn; auto. now rewrite IH. Qed.

Lemma nth_upd {A : Type} (d v : A) (l : list A) :
  forall j, (j < length l)%nat -> nth j (upd j v l) d = v.
Proof.
  induction l as [| y t IH]; intros [| j] H; cbn in *; try lia; auto.
  apply IH; lia.
Qed.

Lemma upd_upd {A : Type} (v w : A) (l : list A) : forall j, upd j w (upd j v l) = upd j w l.
Proof. induction l as [| y t IH]; intros [| j]; cbn; auto. now rewrite IH. Qed.

Lemma upd_app {A : Type} (v w : A) (l r : list A) :
  upd (length l) v (l ++ w :: r) = l ++ v :: r.
Proof. induction l as [| y t IH]; cbn; auto. now rewrite IH. Qed.

(** ** The third loop of clustering *)

Lemma pair_loop_judge (j : nat) (ks : list (R * R)) :
  forall st : list bool * list (list R),
    (j < length (fst st))%nat -> (j < length (snd st))%nat ->
    fold_left (pair_step j) ks st
    = (upd j (fst (fold_left judge_step ks (nth j (fst st) false, nth j (snd st) []))) (fst st),
       upd j (snd (fold_left judge_step ks (nth j (fst st) false, nth j (snd st) []))) (snd st)).
Proof.
  induction ks as [| k ks IH]; intros [valid ct] Hv Hc; cbn [fold_left fst snd] in *.
  - now rewrite !upd_nth.
  - unfold pair_step at 2, judge_step at 2 4. cbn [fst snd].
    destruct (opposed k).
    + rewrite IH; cbn [fst snd]; rewrite ?length_upd; try assumption.
      rewrite !nth_upd by assumption. now rewrite !upd_upd.
    + now rewrite IH.
Qed.

Lemma valid_loop_from (rest : list (list R)) :
  forall done : list (list R),
    fold_left valid_step (seq (length done) (length rest))
      (map (fun t => fst (judge t)) done ++ repeat false (length rest),
       map (fun t => snd (judge t)) done ++ rest)
    = (map (fun t => fst (judge t)) (done ++ rest),
       map (fun t => snd (judge t)) (done ++ rest)).
Proof.
  induction rest as [| t rest IH]; intros done.
  - cbn. now rewrite !app_nil_r.
  - cbn [length seq fold_left repeat].
    assert (Hstep :
      valid_step
        (map (fun t0 => fst (judge t0)) done ++ false :: repeat false (length rest),
         map (fun t0 => snd (judge t0)) done ++ t :: rest) (length done)
      = (map (fun t0 => fst (judge t0)) (done ++ [t]) ++ repeat false (length rest),
         map (fun t0 => snd (judge t0)) (done ++ [t]) ++ rest)).
    { unfold valid_step. cbn [snd].
      rewrite pair_loop_judge; cbn [fst snd]; rewrite ?length_app, ?length_map; cbn [length]; try lia.
      replace (nth (length done) (map (fun t0 => snd (judge t0)) done ++ t :: rest) [])
        with t
        by (rewrite app_nth2, length_map, Nat.sub_diag by (rewrite length_map; lia); reflexivity).
      replace (nth (length done)
                 (map (fun t0 => fst (judge t0)) done ++ false :: repeat false (length rest)) false)
        with false
        by (rewrite app_nth2, length_map, Nat.sub_diag by (rewrite length_map; lia); reflexivity).
      fold (judge t).
      rewrite <- (length_map (fun t0 => fst (judge t0)) done) at 1.
      rewrite upd_app.
      rewrite <- (length_map (fun t0 => snd (judge t0)) done) at 1.
      rewrite upd_app.
      rewrite !map_app. cbn [map]. now rewrite <- !app_assoc. }
    rewrite Hstep.
    replace (S (length done)) with (length (done ++ [t])) by (rewrite length_app; cbn; lia).
    rewrite IH. now rewrite <- !app_assoc.
Qed.

(** The third loop judges every cluster on its own. *)
Lemma valid_loop_judge (cluster_theta : list (list R)) :
  valid_loop (length cluster_theta) cluster_theta
  = (map (fun t => fst (judge t)) cluster_theta,
     map (fun t => snd (judge t)) cluster_theta).
Proof. exact (valid_loop_from cluster_theta []). Qed.

Lemma opposed_iff (k : R * R) :
  opposed k = true <-> Rabs (PI - Rabs (fst k - snd k)) < 0.1.
Proof. unfold opposed. apply Rltb_iff. Qed.

Lemma opposed_false_iff (k : R * R) :
  opposed k = false <-> ~ Rabs (PI - Rabs (fst k - snd k)) < 0.1.
Proof.
  rewrite <- opposed_iff. destruct (opposed k); split; intros H; easy.
Qed.

(** [combinations2] yields the pairs of values at two increasing
    positions, that is the unordered 2-combinations. *)
Lemma combinations2_pairs (t : list R) : forall v w : R,
  In (v, w) (combinations2 t) <->
  exists i j, (i < j)%nat /\ nth_error t i = Some v /\ nth_error t j = Some w.
Proof.
  induction t as [| y t IH]; intros v w; cbn [combinations2].
  - split; [contradiction |]. intros (i & j & _ & Hi & _). destruct i; discriminate.
  - rewrite in_app_iff, in_map_iff, IH. split.
    + intros [(w' & E & Hin) | (i & j & Hij & Hi & Hj)].
      * injection E as <- <-. apply In_nth_error in Hin as [j Hj].
        exists 0%nat, (S j). repeat split; [lia | assumption].
      * exists (S i), (S j). repeat split; [lia | assumption | assumption].
    + intros (i & j & Hij & Hi & Hj).
      destruct j as [| j]; [lia |]. cbn [nth_error] in Hj.
      destruct i as [| i]; cbn [nth_error] in Hi.
      * injection Hi as <-. left. exists w. split; [reflexivity |].
        now apply nth_error_In in Hj.
      * right. exists i, j. repeat split; [lia | assumption | assumption].
Qed.

Lemma judge_fold (ks : list (R * R)) (st : bool * list R) :
  (Forall (fun k => opposed k = false) ks /\ fold_left judge_step ks st = st)
  \/ (exists pre k post,
        ks = pre ++ k :: post /\ opposed k = true /\
        Forall (fun k' => opposed k' = false) post /\
        fold_left judge_step ks st = (true, [fst k; snd k])).
Proof.
  induction ks as [| k ks IH] using rev_ind.
  - left. split; [constructor | reflexivity].
  - rewrite fold_left_app. cbn [fold_left]. unfold judge_step at 1 3.
    destruct (opposed k) eqn:E.
    + right. exists ks, k, []. repeat split; try assumption; constructor.
    + destruct IH as [[Hall Hst] | (pre & k0 & post & Hks & Hk0 & Hpost & Hst)].
      * left. split; [| exact Hst].
        apply Forall_app; split; [exact Hall | constructor; [exact E | constructor]].
      * right. exists pre, k0, (post ++ [k]). subst ks.
        rewrite <- app_assoc. repeat split; try assumption.
        apply Forall_app; split; [exact Hpost | constructor; [exact E | constructor]].
Qed.

(** What [judge] answers for one cluster. *)
Lemma judge_spec (t : list R) :
  (fst (judge t) = true <-> exists k, In k (combinations2 t) /\ opposed k = true)
  /\ (fst (judge t) = true ->
      exists pre k post,
        combinations2 t = pre ++ k :: post /\ opposed k = true /\
        Forall (fun k' => opposed k' = false) post /\
        snd (judge t) = [fst k; snd k])
  /\ (fst (judge t) = false -> snd (judge t) = t).
Proof.
  unfold judge.
  destruct (judge_fold (combinations2 t) (false, t))
    as [[Hall ->] | (pre & k & post & Hks & Hk & Hpost & ->)]; cbn [fst snd].
  - split; [| split].
    + split; [discriminate |].
      intros (k & Hin & Hk). rewrite Forall_forall in Hall.
      rewrite (Hall k Hin) in Hk. discriminate.
    + discriminate.
    + reflexivity.
  - split; [| split].
    + split; [| reflexivity]. intros _. exists k. split; [| exact Hk].
      rewrite Hks. apply in_elt.
    + intros _. now exists pre, k, post.
    + discriminate.
Qed.

(** C3.  In the third loop of clustering, the cluster at position [j] is
    marked valid exactly when two of its angles, at two different
    positions, satisfy | pi - |theta1 - theta2| | < 0.1; and the angles of a
    valid cluster become the pair that satisfies the test last in the order
    of [itertools.combinations]: no later combination satisfies it. *)
Theorem valid_iff_opposed_last_pair (cluster_theta : list (list R)) (j : nat) (t : list R) :
  nth_error cluster_theta j = Some t ->
  exists (v : bool) (t' : list R),
    nth_error (fst (valid_loop (length cluster_theta) cluster_theta)) j = Some v /\
    nth_error (snd (valid_loop (length cluster_theta) cluster_theta)) j = Some t' /\
    (v = true <->
       exists i1 i2 theta1 theta2,
         (i1 < i2)%nat /\ nth_error t i1 = Some theta1 /\ nth_error t i2 = Some theta2 /\
         Rabs (PI - Rabs (theta1 - theta2)) < 0.1) /\
    (v = true ->
       exists pre theta1 theta2 post,
         combinations2 t = pre ++ (theta1, theta2) :: post /\
         Rabs (PI - Rabs (theta1 - theta2)) < 0.1 /\
         (forall k, In k post -> ~ Rabs (PI - Rabs (fst k - snd k)) < 0.1) /\
         t' = [theta1; theta2]) /\
    (v = false -> t' = t).
Proof.
  intros Ht. rewrite valid_loop_judge. cbn [fst snd].
  exists (fst (judge t)), (snd (judge t)).
  rewrite !nth_error_map, Ht. cbn [option_map].
  destruct (judge_spec t) as (Hiff & Hlast & Hkeep).
  repeat split; try assumption.
  - intros Hv. apply Hiff in Hv as ([theta1 theta2] & Hin & Hk).
    apply combinations2_pairs in Hin as (i1 & i2 & Hlt & H1 & H2).
    apply opposed_iff in Hk. now exists i1, i2, theta1, theta2.
  - intros (i1 & i2 & theta1 & theta2 & Hlt & H1 & H2 & Hk).
    apply Hiff. exists (theta1, theta2). split.
    + apply combinations2_pairs. now exists i1, i2.
    + now apply opposed_iff.
  - intros Hv. destruct (Hlast Hv) as (pre & [theta1 theta2] & post & Hks & Hk & Hpost & Ht').
    exists pre, theta1, theta2, post. repeat split; try assumption.
    + now apply opposed_iff in Hk.
    + intros k Hin. rewrite Forall_forall in Hpost. now apply opposed_false_iff, Hpost.
Qed.

(** ** The second loop of clustering *)

Lemma bind_ok {A B : Type} (m : result A) (f : A -> result B) (b : B) :
  bind m f = Ok b -> exists v, m = Ok v /\ f v = Ok b.
Proof. destruct m; cbn; intros H; try discriminate. now exists a0. Qed.

Lemma walk_step_inv (x theta : list R) (bin_freqs : list (R * nat)) (st st' : walk) (j : nat) :
  walk_inv st -> walk_step x theta bin_freqs st j = Ok st' -> walk_inv st'.
Proof.
  intros [Hlen Hall] H. unfold walk_step in H.
  apply bind_ok in H as (bf & _ & H).
  destruct (Rltb (w_prev_bin st + delta_bin) (fst bf)
            || Nat.eqb j (length bin_freqs - 1)).
  - apply bind_ok in H as (st1 & H1 & H). injection H as <-.
    unfold walk_inv; cbn [w_cluster w_cluster_theta].
    destruct (negb (Nat.eqb j 0)).
    + apply bind_ok in H1 as (end_ & _ & H1).
      destruct (Nat.ltb 1 (length (select (x_range_of x (w_start st) end_) x))) eqn:E.
      * apply bind_ok in H1 as (ts & _ & H1). injection H1 as <-.
        cbn [w_cluster w_cluster_theta]. rewrite !length_app, Hlen. split; [reflexivity |].
        apply Forall_app; split; [exact Hall |].
        constructor; [| constructor]. apply Nat.ltb_lt in E. lia.
      * injection H1 as <-. now split.
    + injection H1 as <-. now split.
  - injection H as <-. now split.
Qed.

Lemma walk_loop_inv (x theta : list R) (bin_freqs : list (R * nat)) (js : list nat) :
  forall st st', walk_inv st -> walk_loop x theta bin_freqs st js = Ok st' -> walk_inv st'.
Proof.
  induction js as [| j js IH]; intros st st' Hinv H; cbn [walk_loop] in H.
  - now injection H as <-.
  - apply bind_ok in H as (st1 & H1 & H).
    apply (IH st1); [now apply (walk_step_inv x theta bin_freqs st st1 j) | exact H].
Qed.

Lemma length_select_same {A B : Type} (mask : list bool) :
  forall (l : list A) (r : list B),
    length l = length r -> length (select mask l) = length (select mask r).
Proof.
  induction mask as [| b m IH]; intros [| y l] [| z r] H; cbn in *; try lia; try discriminate.
  destruct b; cbn; auto.
Qed.

Lemma Forall_select {A : Type} (P : A -> Prop) (mask : list bool) :
  forall l : list A, Forall P l -> Forall P (select mask l).
Proof.
  induction mask as [| b m IH]; intros [| y l] H; cbn; try constructor.
  inversion H; subst. destruct b; [constructor |]; auto.
Qed.

Lemma judged_pairs (cts : list (list R)) :
  Forall (fun t => length t = 2%nat)
         (select (map (fun t => fst (judge t)) cts) (map (fun t => snd (judge t)) cts)).
Proof.
  induction cts as [| t cts IH]; cbn [map select]; [constructor |].
  destruct (fst (judge t)) eqn:E; [| exact IH].
  constructor; [| exact IH].
  destruct (judge_spec t) as (_ & Hlast & _).
  destruct (Hlast E) as (pre & k & post & _ & _ & _ & ->). reflexivity.
Qed.

(** What [clustering] hands back when it hands back clusters. *)
Lemma clustering_shape (x theta : list R) (cluster cluster_theta : list (list R)) :
  clustering x theta = Ok (Some (cluster, cluster_theta)) ->
  cluster <> [] /\ length cluster = length cluster_theta
  /\ Forall (fun c => (2 <= length c)%nat) cluster
  /\ Forall (fun t => length t = 2%nat) cluster_theta.
Proof.
  unfold clustering. intros H.
  apply bind_ok in H as (st & Hwalk & H).
  assert (Hinv : walk_inv st).
  { apply (walk_loop_inv _ _ _ _ walk_init st) in Hwalk; [exact Hwalk |].
    split; [reflexivity | constructor]. }
  destruct Hinv as [Hlen Hall].
  rewrite Hlen, valid_loop_judge in H.
  destruct (Nat.eqb (length (select (map (fun t => fst (judge t)) (w_cluster_theta st))
                                    (w_cluster st))) 0) eqn:E; [discriminate |].
  injection H as <- <-.
  split; [| split; [| split]].
  - intros Hnil. rewrite Hnil in E. discriminate.
  - apply length_select_same. now rewrite length_map.
  - now apply Forall_select.
  - apply judged_pairs.
Qed.

Lemma clustering_well_formed (x theta : list R) (cluster cluster_theta : list (list R)) :
  clustering x theta = Ok (Some (cluster, cluster_theta)) ->
  cluster_theta <> [] /\ well_formed cluster cluster_theta.
Proof.
  intros H. apply clustering_shape in H as (Hne & Hlen & _ & Hpairs).
  split; [| split].
  - intros ->. destruct cluster; [contradiction | discriminate].
  - exact Hlen.
  - eapply Forall_impl; [| exact Hpairs]. intros t Ht ->. discriminate.
Qed.

(** ** Evaluating the histogram *)

Lemma bins_le (i j : nat) : (i <= j)%nat -> bins i <= bins j.
Proof. intros H. unfold bins. apply IZR_le. lia. Qed.

Lemma in_bin_outside (lo n j : nat) (v : R) :
  (lo <= j < lo + n)%nat -> (lo + n <= 100)%nat ->
  v < bins lo \/ (bins (lo + n) <= v /\ (lo + n <= 99)%nat) \/ 500 < v ->
  in_bin j v = false.
Proof.
  intros Hj Hn Hv. unfold in_bin.
  destruct Hv as [Hv | [[Hv Hn'] | Hv]].
  - rewrite Rleb_false; [reflexivity |].
    pose proof (bins_le lo j ltac:(lia)). lra.
  - replace (Nat.eqb j 99) with false by (symmetry; apply Nat.eqb_neq; lia).
    rewrite (Rltb_false v); [apply andb_false_r |].
    pose proof (bins_le (S j) (lo + n) ltac:(lia)). lra.
  - destruct (Nat.eqb j 99) eqn:E.
    + rewrite (Rleb_false v); [apply andb_false_r |]. unfold bins; cbn; lra.
    + apply Nat.eqb_neq in E. rewrite (Rltb_false v); [apply andb_false_r |].
      pose proof (bins_le (S j) 100 ltac:(lia)). unfold bins in H at 2. cbn in H. lra.
Qed.

Lemma flat_map_all_nil {A B : Type} (f : A -> list B) (l : list A) :
  (forall y, In y l -> f y = []) -> flat_map f l = [].
Proof.
  induction l as [| y l IH]; intros H; cbn [flat_map]; [reflexivity |].
  rewrite (H y (or_introl eq_refl)), IH; [reflexivity |].
  intros z Hz. apply H. now right.
Qed.

Lemma freq_zero (x : list R) (j : nat) :
  Forall (fun v => in_bin j v = false) x -> freq x j = 0%nat.
Proof.
  unfold freq. induction 1 as [| v x Hv _ IH]; cbn [filter]; [reflexivity |].
  now rewrite Hv.
Qed.

(** A stretch of bins that no radius falls into adds nothing to
    [bin_freqs]. *)
Lemma no_bins (x : list R) (lo n : nat) :
  (lo + n <= 100)%nat ->
  Forall (fun v => v < bins lo \/ (bins (lo + n) <= v /\ (lo + n <= 99)%nat) \/ 500 < v) x ->
  flat_map (fun j => if Nat.eqb (freq x j) 0 then [] else [(bins j, freq x j)]) (seq lo n)
  = [].
Proof.
  intros Hn Hall. apply flat_map_all_nil. intros j Hj. apply in_seq in Hj.
  rewrite freq_zero; [reflexivity |].
  eapply Forall_impl; [| exact Hall].
  intros v Hv. now apply (in_bin_outside lo n).
Qed.

(** Deciding comparisons of literals. *)
Ltac bins_lit :=
  repeat match goal with
    | |- context [bins ?j] =>
        let z := eval vm_compute in (5 * Z.of_nat j)%Z in
        change (bins j) with (IZR z)
    end.

Ltac lit := unfold delta_bin; bins_lit; lra.

Ltac decide_lit :=
  repeat match goal with
    | |- context [Rltb ?u ?v] =>
        first [rewrite (Rltb_true u v) by lit | rewrite (Rltb_false u v) by lit]
    | |- context [Rleb ?u ?v] =>
        first [rewrite (Rleb_true u v) by lit | rewrite (Rleb_false u v) by lit]
    end.

(** Cutting [bin_freqs] at the bins that are occupied. *)
Ltac cut_bins lo n :=
  rewrite (no_bins _ lo n) by
    (try lia; repeat constructor; lit).

Ltac eval_bins :=
  cbn [seq flat_map app]; unfold freq, in_bin; cbn [filter Nat.eqb];
  decide_lit; cbn [andb filter length Nat.eqb app]; bins_lit.

Ltac cut_histogram lo n :=
  unfold bin_freqs_of;
  change (seq 0 100) with (seq 0 lo ++ seq lo n ++ seq (lo + n) (100 - (lo + n)));
  rewrite !flat_map_app;
  cut_bins 0%nat lo;
  (let l := eval vm_compute in (lo + n)%nat in
   let m := eval vm_compute in (100 - (lo + n))%nat in
   change (seq (lo + n) (100 - (lo + n))) with (seq l m);
   cut_bins l m);
  eval_bins.

Lemma bin_freqs_three_radii :
  bin_freqs_of [100; 101; 106] = [(100, 2%nat); (105, 1%nat)].
Proof. cut_histogram 20%nat 2%nat. reflexivity. Qed.

Lemma bin_freqs_one_ring :
  bin_freqs_of [300; 300] = [(300, 2%nat)].
Proof. cut_histogram 60%nat 1%nat. reflexivity. Qed.

Lemma bin_freqs_ring_two_bins :
  bin_freqs_of [300; 306] = [(300, 1%nat); (305, 1%nat)].
Proof. cut_histogram 60%nat 2%nat. reflexivity. Qed.

Lemma bin_freqs_two_rings :
  bin_freqs_of [100; 100; 300; 300] = [(100, 2%nat); (300, 2%nat)].
Proof.
  unfold bin_freqs_of.
  change (seq 0 100)
    with (seq 0 20 ++ seq 20 1 ++ seq 21 39 ++ seq 60 1 ++ seq 61 39).
  rewrite !flat_map_app.
  cut_bins 0%nat 20%nat. cut_bins 21%nat 39%nat. cut_bins 61%nat 39%nat.
  eval_bins. reflexivity.
Qed.

(** ** Evaluating the opposition test *)

Lemma PI_gt_3 : 3 < PI.
Proof. pose proof PI2_3_2. lra. Qed.

Ltac decide_opposed :=
  unfold opposed; cbn [fst snd];
  first [apply Rltb_true | apply Rltb_false];
  pose proof PI_gt_3; pose proof PI_4;
  unfold Rabs; repeat destruct Rcase_abs; lra.

Lemma opposed_0_PI : opposed (0, PI) = true.
Proof. decide_opposed. Qed.

Lemma opposed_PI_0 : opposed (PI, 0) = true.
Proof. decide_opposed. Qed.

Lemma opposed_0_0 : opposed (0, 0) = false.
Proof. decide_opposed. Qed.

Lemma opposed_PI_PI : opposed (PI, PI) = false.
Proof. decide_opposed. Qed.

Lemma opposed_0_1 : opposed (0, 1) = false.
Proof. decide_opposed. Qed.

Lemma opposed_PI_1 : opposed (PI, 1) = false.
Proof. decide_opposed. Qed.

Ltac eval_opposed :=
  rewrite ?opposed_0_PI, ?opposed_PI_0, ?opposed_0_0, ?opposed_PI_PI,
          ?opposed_0_1, ?opposed_PI_1.

Ltac run_walk :=
  repeat (progress (
    unfold walk_step, mask_index, x_range_of;
    cbn [walk_loop py_index nth_error bind fst snd length Nat.sub Nat.eqb Nat.ltb
         Nat.leb negb orb andb w_prev_bin w_start w_cluster w_cluster_theta
         walk_init map select app];
    decide_lit)).

Ltac run_valid :=
  unfold valid_loop, valid_step;
  repeat (progress (
    unfold pair_step;
    cbn [length seq repeat fold_left nth snd fst combinations2 map app upd];
    eval_opposed)).

Lemma clustering_three_radii :
  clustering [100; 101; 106] [0; PI; 1] = Ok (Some ([[100; 101; 106]], [[0; PI]])).
Proof.
  unfold clustering. rewrite bin_freqs_three_radii.
  cbn [length seq]. run_walk. run_valid. reflexivity.
Qed.

Lemma clustering_ring_two_bins :
  clustering [300; 306] [0; PI] = Ok (Some ([[300; 306]], [[0; PI]])).
Proof.
  unfold clustering. rewrite bin_freqs_ring_two_bins.
  cbn [length seq]. run_walk. run_valid. reflexivity.
Qed.

Lemma clustering_one_ring :
  clustering [300; 300] [0; PI] = Ok None.
Proof.
  unfold clustering. rewrite bin_freqs_one_ring.
  cbn [length seq]. run_walk. run_valid. reflexivity.
Qed.

Lemma clustering_two_rings :
  clustering [100; 100; 300; 300] [0; PI; 0; PI]
  = Ok (Some ([[100; 100; 300; 300]], [[0; PI]])).
Proof.
  unfold clustering. rewrite bin_freqs_two_rings.
  cbn [length seq]. run_walk. run_valid. reflexivity.
Qed.

(** C4 at two inputs.  A ring whose two radii share one histogram bin is
    the only occupied bin: the loop closes a cluster only at a bin other
    than the first, and no cluster comes out.  Two rings 200 apart, the
    second in one bin: the last bin closes the cluster that started at
    100, and both rings come out as one cluster. *)
Theorem clustering_isolated_groups :
  clustering [300; 300] [0; PI] = Ok None
  /\ clustering [100; 100; 300; 300] [0; PI; 0; PI]
     = Ok (Some ([[100; 100; 300; 300]], [[0; PI]])).
Proof. split; [exact clustering_one_ring | exact clustering_two_rings]. Qed.

Lemma Forall2_of_Forall {A B : Type} (P : A -> Prop) (Q : B -> Prop) :
  forall (l : list A) (r : list B),
    length l = length r -> Forall P l -> Forall Q r ->
    Forall2 (fun y z => P y /\ Q z) l r.
Proof.
  induction l as [| y l IH]; intros [| z r] Hlen Hl Hr; try discriminate; constructor.
  - inversion Hl; inversion Hr; now subst.
  - inversion Hl; inversion Hr; subst. apply IH; auto.
Qed.

(** C9, as the code has it.  Every cluster [clustering] returns pairs at
    least two radii with exactly two angles, the opposed pair; there are
    as many angle pairs as radius sequences. *)
Theorem clustering_pairs_two_angles (x theta : list R) (cluster cluster_theta : list (list R)) :
  clustering x theta = Ok (Some (cluster, cluster_theta)) ->
  Forall2 (fun c t => (2 <= length c)%nat /\ length t = 2%nat) cluster cluster_theta.
Proof.
  intros H. apply clustering_shape in H as (_ & Hlen & Hc & Ht).
  now apply Forall2_of_Forall.
Qed.

Lemma clustering_pairs_two_angles_witness :
  clustering [100; 101; 106] [0; PI; 1] = Ok (Some ([[100; 101; 106]], [[0; PI]]))
  /\ Forall2 (fun c t => (2 <= length c)%nat /\ length t = 2%nat)
             [[100; 101; 106]] [[0; PI]].
Proof.
  split; [exact clustering_three_radii |].
  apply (clustering_pairs_two_angles [100; 101; 106] [0; PI; 1]).
  exact clustering_three_radii.
Defined.

(** C9 as stated fails: three radii 100, 101, 106 with angles 0, pi, 1
    form one valid cluster of three radii, returned with the two angles
    0 and pi. *)
Lemma clustering_lengths_differ :
  ~ (forall cluster cluster_theta,
       clustering [100; 101; 106] [0; PI; 1] = Ok (Some (cluster, cluster_theta)) ->
       Forall2 (fun c t => length c = length t) cluster cluster_theta).
Proof.
  intros H. specialize (H _ _ clustering_three_radii).
  inversion H as [| ? ? ? ? Hlen _]; subst. discriminate Hlen.
Qed.

(** ** The line fit *)

Lemma Reqb_iff (x y : R) : Reqb x y = true <-> x = y.
Proof. unfold Reqb. destruct (Req_dec_T x y); split; intros; easy. Qed.

Lemma all_zero_iff (x : list R) :
  forallb (fun u => Reqb u 0) x = true <-> Forall (fun u => u = 0) x.
Proof.
  rewrite forallb_forall, Forall_forall.
  split; intros H u Hu; apply Reqb_iff; now apply H.
Qed.

Lemma all_zero_sums (x : list R) :
  Forall (fun u => u = 0) x -> dot x x = 0 /\ sum x = 0.
Proof.
  induction 1 as [| u x -> _ [IHd IHs]]; cbn [dot sum]; [now split |].
  rewrite IHd, IHs. split; ring.
Qed.

Lemma full_rank_not_all_zero (x : list R) :
  INR (length x) * dot x x - sum x * sum x <> 0 ->
  forallb (fun u => Reqb u 0) x = false.
Proof.
  intros Hdet. destruct (forallb (fun u => Reqb u 0) x) eqn:E; [| reflexivity].
  apply all_zero_iff, all_zero_sums in E as [Hd Hs]. rewrite Hd, Hs in Hdet.
  exfalso. apply Hdet. ring.
Qed.

Lemma polyfit_ok (x y : list R) (m c : R) :
  length x = length y -> x <> [] ->
  INR (length x) * dot x x - sum x * sum x <> 0 ->
  m = (INR (length x) * dot x y - sum x * sum y)
      / (INR (length x) * dot x x - sum x * sum x) ->
  c = (sum y - m * sum x) / INR (length x) ->
  polyfit x y = Ok (m, c).
Proof.
  intros Hlen Hne Hdet -> ->. unfold polyfit.
  rewrite (full_rank_not_all_zero x Hdet).
  destruct x as [| u x]; [contradiction |]. cbn [length Nat.eqb].
  rewrite <- Hlen. cbn [length]. rewrite Nat.eqb_refl. cbn [negb].
  now rewrite Reqb_false.
Qed.

Lemma polyfit_inv (x y : list R) (m c : R) :
  polyfit x y = Ok (m, c) ->
  length x = length y /\ x <> [] /\
  INR (length x) * dot x x - sum x * sum x <> 0 /\
  m = (INR (length x) * dot x y - sum x * sum y)
      / (INR (length x) * dot x x - sum x * sum x) /\
  c = (sum y - m * sum x) / INR (length x).
Proof.
  unfold polyfit.
  destruct (Nat.eqb (length x) 0) eqn:E0; [discriminate |].
  destruct (Nat.eqb (length x) (length y)) eqn:El; cbn [negb]; [| discriminate].
  destruct (forallb (fun u => Reqb u 0) x); [discriminate |].
  unfold Reqb. destruct (Req_dec_T _ 0) as [| Hdet]; [discriminate |].
  intros H. injection H as <- <-.
  apply Nat.eqb_eq in El. apply Nat.eqb_neq in E0.
  repeat split; try assumption. intros ->. now apply E0.
Qed.

(** The residual sum of squares in terms of the sums [polyfit] uses. *)
Lemma sse_expand (m c : R) : forall us xs : list R,
  length us = length xs ->
  sse us xs m c
  = m ^ 2 * dot us us + 2 * m * c * sum us + INR (length us) * c ^ 2
    - 2 * m * dot us xs - 2 * c * sum xs + dot xs xs.
Proof.
  induction us as [| u us IH]; intros [| v xs] Hlen; try discriminate.
  - cbn. ring.
  - cbn [sse dot sum]. rewrite IH by (cbn in Hlen; lia).
    change (length (u :: us)) with (S (length us)). rewrite S_INR. ring.
Qed.

Lemma sse_nonneg (m c : R) : forall us xs : list R, 0 <= sse us xs m c.
Proof.
  induction us as [| u us IH]; intros [| v xs]; cbn [sse]; try lra.
  specialize (IH xs). pose proof (pow2_ge_0 (m * u + c - v)). lra.
Qed.

(** [polyfit] is a least-squares fit: no line has a smaller residual sum
    of squares than the one it returns. *)
Lemma polyfit_least_squares (us xs : list R) (m c : R) :
  polyfit us xs = Ok (m, c) ->
  forall m' c', sse us xs m c <= sse us xs m' c'.
Proof.
  intros H m' c'.
  apply polyfit_inv in H as (Hlen & Hne & Hdet & Hm & Hc).
  assert (Hn : INR (length us) <> 0).
  { apply not_0_INR. intros E. apply Hne. now apply length_zero_iff_nil. }
  (* the normal equations *)
  assert (N2 : m * sum us + INR (length us) * c = sum xs).
  { rewrite Hc. field. exact Hn. }
  assert (N1 : m * dot us us + c * sum us = dot us xs).
  { assert (E : INR (length us) * (m * dot us us + c * sum us)
                = INR (length us) * dot us xs).
    { replace (INR (length us) * (m * dot us us + c * sum us))
        with (m * (INR (length us) * dot us us - sum us * sum us)
              + sum us * (m * sum us + INR (length us) * c)) by ring.
      rewrite N2, Hm. field. exact Hdet. }
    now apply Rmult_eq_reg_l in E. }
  (* the gap between the two sums is itself a sum of squares *)
  pose proof (sse_nonneg (m' - m) (c' - c) us (map (fun _ => 0) us)) as Hgap.
  rewrite sse_expand in Hgap by (now rewrite length_map).
  assert (Hz1 : dot us (map (fun _ => 0) us) = 0).
  { clear. induction us as [| u us IH]; cbn; [reflexivity | rewrite IH; ring]. }
  assert (Hz2 : sum (map (fun _ => 0) us) = 0).
  { clear. induction us as [| u us IH]; cbn; [reflexivity | rewrite IH; ring]. }
  assert (Hz3 : dot (map (fun _ => 0) us) (map (fun _ => 0) us) = 0).
  { clear. induction us as [| u us IH]; cbn; [reflexivity | rewrite IH; ring]. }
  rewrite Hz1, Hz2, Hz3 in Hgap.
  rewrite !sse_expand by assumption.
  nra.
Qed.

Lemma finite_u_iff (s : R) : finite_u s = true <-> s ^ 2 < 1.
Proof. unfold finite_u. apply Rltb_iff. Qed.

Lemma all_finite_iff (sinthetas : list R) :
  forallb finite_u sinthetas = true <-> Forall (fun s => s ^ 2 < 1) sinthetas.
Proof.
  rewrite forallb_forall, Forall_forall.
  split; intros H s Hs; apply finite_u_iff; now apply H.
Qed.

Lemma linearize_0 : linearize 0 = 0.
Proof. unfold linearize, Rdiv. ring. Qed.

Lemma linearize_pos (s : R) : 0 < s < 1 -> 0 < linearize s.
Proof.
  intros [H0 H1]. unfold linearize. apply Rdiv_lt_0_compat; [exact H0 |].
  apply sqrt_lt_R0. nra.
Qed.

(** The seed and one sample: both passes are full rank and the fitted
    line is the one through the origin and the sample. *)
Lemma fit_one_sample (x s : R) :
  0 < s < 1 -> fit_xs_and_sinthetas [0; x] [0; s] = Ok (x / linearize s, 0).
Proof.
  intros Hs. pose proof (linearize_pos s Hs) as Hu.
  unfold fit_xs_and_sinthetas.
  rewrite (proj2 (all_finite_iff [0; s])) by (repeat constructor; nra).
  cbn [polyfit_array map]. rewrite linearize_0.
  generalize dependent (linearize s). intros u Hu.
  assert (Huu : 0 < u * u) by (now apply Rmult_lt_0_compat).
  rewrite (polyfit_ok [0; u] [0; x] (x / u) 0); try reflexivity; try discriminate.
  - cbn [bind]. unfold outlier_mask, reseed. cbn [combine map fst snd].
    replace (x / u * 0 + 0 - 0) with 0 by ring.
    replace (x / u * u + 0 - x) with 0 by (field; lra).
    rewrite Rabs_R0, (Rltb_false 50 0) by lra. cbn [negb select].
    apply polyfit_ok; try reflexivity; try discriminate.
    + cbn [length dot sum INR]. apply Rgt_not_eq. nra.
    + cbn [length dot sum INR]. field. lra.
    + cbn [length dot sum INR]. field. lra.
  - cbn [length dot sum INR]. apply Rgt_not_eq. nra.
  - cbn [length dot sum INR]. field. lra.
  - cbn [length dot sum INR]. field. lra.
Qed.

(** ** The pipeline *)

Lemma image_step_sample (bt : base_type) (xs sinthetas : list R) (img : image) :
  image_step bt (xs, sinthetas) img
  = (r <- image_sample bt img ;;
     Ok (match r with
         | None => (xs, sinthetas)
         | Some (x, s) => (xs ++ [x], sinthetas ++ [s])
         end)).
Proof.
  unfold image_step, image_sample.
  destruct (polar img) as [[x theta] |]; [| reflexivity].
  destruct (clustering x theta) as [[[cluster cluster_theta] |] | e |];
    cbn [bind]; try reflexivity.
  destruct (calc_x_and_sintheta bt cluster cluster_theta (voltage_of img))
    as [[[x' s] |] | e |]; reflexivity.
Qed.

Lemma image_loop_skipped (bt : base_type) (imgs : list image) :
  forall acc : list R * list R,
    Forall (fun i => image_sample bt i = Ok None) imgs ->
    image_loop bt acc imgs = Ok acc.
Proof.
  induction imgs as [| img imgs IH]; intros [xs ss] H; [reflexivity |].
  inversion H as [| ? ? Himg Hrest]; subst.
  cbn [image_loop]. rewrite image_step_sample, Himg. cbn [bind]. now apply IH.
Qed.

Lemma image_loop_app (bt : base_type) (pre post : list image) :
  forall acc : list R * list R,
    image_loop bt acc (pre ++ post)
    = (acc' <- image_loop bt acc pre ;; image_loop bt acc' post).
Proof.
  induction pre as [| img pre IH]; intros acc; [reflexivity |].
  cbn [app image_loop].
  destruct (image_step bt acc img) as [acc1 | e |]; cbn [bind]; [apply IH | easy | easy].
Qed.

(** A raise in the body of the loop ends the run: the images after it
    are not looked at. *)
Lemma image_loop_raise (bt : base_type) (acc : list R * list R) (img : image)
    (rest : list image) (e : exn) :
  image_step bt acc img = Raise e -> image_loop bt acc (img :: rest) = Raise e.
Proof. intros H. cbn [image_loop]. now rewrite H. Qed.

(** The samples always start with the seed. *)
Lemma image_loop_seed (bt : base_type) (imgs : list image) :
  forall xs ss xs1 ss1,
    image_loop bt (0 :: xs, 0 :: ss) imgs = Ok (xs1, ss1) ->
    exists xs' ss', xs1 = 0 :: xs' /\ ss1 = 0 :: ss'.
Proof.
  induction imgs as [| img imgs IH]; intros xs ss xs1 ss1 H; cbn [image_loop] in H.
  - injection H as <- <-. now exists xs, ss.
  - apply bind_ok in H as ([xs2 ss2] & Hstep & H).
    rewrite image_step_sample in Hstep.
    apply bind_ok in Hstep as (r & _ & Hr). injection Hr as Hr.
    destruct r as [[x s] |]; injection Hr as <- <-; cbn [app] in H; now apply IH in H.
Qed.

(** The seed and one sample reach the fit, which is then full rank. *)
Lemma one_sample_slope (bt : base_type) (pre post : list image)
    (img : image) (x s : R) :
  Forall (fun i => image_sample bt i = Ok None) pre ->
  image_sample bt img = Ok (Some (x, s)) ->
  Forall (fun i => image_sample bt i = Ok None) post ->
  0 < s < 1 ->
  calc_rprime bt (pre ++ img :: post) = Ok (x / linearize s).
Proof.
  intros Hpre Himg Hpost Hs. unfold calc_rprime.
  rewrite image_loop_app, (image_loop_skipped bt pre _ Hpre). cbn [bind image_loop].
  rewrite image_step_sample, Himg. cbn [bind app].
  rewrite (image_loop_skipped bt post _ Hpost). cbn [bind].
  now rewrite (fit_one_sample x s Hs).
Qed.

Lemma lambda_unit : sqrt (150.4 / 150.4) = 1.
Proof. replace (150.4 / 150.4) with 1 by lra. apply sqrt_1. Qed.

Lemma ring_image_sample_Ag :
  image_sample {| bt_kind := Ag; bt_surface := S110 |} ring_image
  = Ok (Some (median [300; 306], 1 * sqrt (150.4 / 150.4) / a Ag)).
Proof.
  unfold image_sample, ring_image. cbn [polar voltage_of].
  rewrite clustering_ring_two_bins. cbn [bind].
  rewrite calc_110_other_sample; [reflexivity | discriminate |].
  split; [reflexivity |]. constructor; [discriminate | constructor].
Qed.

Lemma ring_image_sintheta_Ag : 0 < 1 * sqrt (150.4 / 150.4) / a Ag < 1.
Proof. rewrite lambda_unit. unfold a. lra. Qed.

(** C2 as stated fails: a run whose only image is usable has fewer than
    two usable samples and returns a slope. *)
Lemma one_usable_image_no_error :
  ~ (forall bt imgs,
       (length (filter (usable bt) imgs) < 2)%nat ->
       exists e, calc_rprime bt imgs = Raise e).
Proof.
  intros H.
  destruct (H {| bt_kind := Ag; bt_surface := S110 |} [ring_image]) as [e He].
  - cbn [filter]. destruct (usable _ ring_image); cbn [length]; lia.
  - change [ring_image] with ([] ++ ring_image :: []) in He.
    rewrite (one_sample_slope _ [] [] ring_image _ _
               (Forall_nil _) ring_image_sample_Ag (Forall_nil _) ring_image_sintheta_Ag)
      in He.
    discriminate He.
Qed.

Lemma median_pair (u v : R) : u <= v -> median [u; v] = (u + v) / 2.
Proof.
  intros H. unfold median. cbn [sort insert_sorted].
  rewrite (Rleb_true u v H). reflexivity.
Qed.

Lemma py_min_0_PI : py_min [0; PI] = Ok 0.
Proof.
  cbn [py_min min_from]. rewrite (Rltb_false PI 0); [reflexivity |].
  pose proof PI_RGT_0. lra.
Qed.

Lemma bin_freqs_inner_ring :
  bin_freqs_of [100; 106] = [(100, 1%nat); (105, 1%nat)].
Proof. cut_histogram 20%nat 2%nat. reflexivity. Qed.

Lemma clustering_inner_ring :
  clustering [100; 106] [0; PI] = Ok (Some ([[100; 106]], [[0; PI]])).
Proof.
  unfold clustering. rewrite bin_freqs_inner_ring.
  cbn [length seq]. run_walk. run_valid. reflexivity.
Qed.

(** Au, surface '110', the ring at 303: its order is 303 // 100 + 1 = 4,
    above 2, it is the only cluster, and the call falls off its end. *)
Lemma calc_Au_ring_none :
  calc_x_and_sintheta {| bt_kind := Au; bt_surface := S110 |}
    [[300; 306]] [[0; PI]] 150.4 = Ok None.
Proof.
  unfold calc_x_and_sintheta. cbn [bt_surface bt_kind].
  rewrite baseline_fresh. cbn [py_index nth_error bind].
  rewrite py_min_0_PI. cbn [bind au_loop]. rewrite py_min_0_PI. cbn [bind].
  rewrite error_zero. cbn [py_index nth_error bind].
  rewrite lambda_unit, (median_pair 300 306) by lra.
  unfold floor_div.
  rewrite (Zfloor_eq 3) by lra.
  rewrite (Rltb_true 2 (3 + 1)) by lra. reflexivity.
Qed.

(** The ring at 103 has order 103 // 100 + 1 = 2 and gives a sample. *)
Lemma calc_Au_inner_ring :
  calc_x_and_sintheta {| bt_kind := Au; bt_surface := S110 |}
    [[100; 106]] [[0; PI]] 150.4 = Ok (Some (103, 1 / a Au)).
Proof.
  unfold calc_x_and_sintheta. cbn [bt_surface bt_kind].
  rewrite baseline_fresh. cbn [py_index nth_error bind].
  rewrite py_min_0_PI. cbn [bind au_loop]. rewrite py_min_0_PI. cbn [bind].
  rewrite error_zero. cbn [py_index nth_error bind].
  rewrite lambda_unit, (median_pair 100 106) by lra.
  unfold floor_div.
  rewrite (Zfloor_eq 1) by lra.
  rewrite (Rltb_false 2 (1 + 1)) by lra.
  do 2 f_equal. apply f_equal2; [lra | unfold a; lra].
Qed.

(** C1 at an input.  Au, surface '110', a ring at radius 303 seen at
    150.4 V, followed by an image that yields a sample on its own.
    Clustering succeeds on the first image, no order is resolved for it,
    and unpacking the missing sample raises: the run ends in [TypeError]
    and the second image is never fitted, though alone it gives a slope. *)
Theorem unresolved_order_raises :
  clustering [300; 306] [0; PI] = Ok (Some ([[300; 306]], [[0; PI]]))
  /\ calc_x_and_sintheta {| bt_kind := Au; bt_surface := S110 |}
       [[300; 306]] [[0; PI]] 150.4 = Ok None
  /\ calc_rprime {| bt_kind := Au; bt_surface := S110 |} [ring_image; inner_ring_image]
     = Raise TypeError
  /\ calc_rprime {| bt_kind := Au; bt_surface := S110 |} [inner_ring_image]
     = Ok (103 / linearize (1 / a Au)).
Proof.
  split; [exact clustering_ring_two_bins |].
  split; [exact calc_Au_ring_none |].
  split.
  - unfold calc_rprime.
    rewrite (image_loop_raise _ _ ring_image [inner_ring_image] TypeError); [reflexivity |].
    unfold image_step, ring_image. cbn [polar voltage_of].
    rewrite clustering_ring_two_bins. cbn [bind].
    now rewrite calc_Au_ring_none.
  - change [inner_ring_image] with ([] ++ inner_ring_image :: []).
    apply one_sample_slope; try constructor.
    + unfold image_sample, inner_ring_image. cbn [polar voltage_of].
      rewrite clustering_inner_ring. cbn [bind].
      now rewrite calc_Au_inner_ring.
    + unfold a. lra.
    + unfold a. lra.
Qed.

(** ** The seed *)

Lemma linearize_5_13 : linearize (5 / 13) = 5 / 12.
Proof.
  unfold linearize.
  replace (1 - (5 / 13) ^ 2) with ((12 / 13) * (12 / 13)) by field.
  rewrite sqrt_square by lra. field.
Qed.

Lemma linearize_4_5 : linearize (4 / 5) = 4 / 3.
Proof.
  unfold linearize.
  replace (1 - (4 / 5) ^ 2) with ((3 / 5) * (3 / 5)) by field.
  rewrite sqrt_square by lra. field.
Qed.

(** The first pass on the seed and the samples (200, 5/13), (240, 4/5):
    the fitted line has intercept 11000/201, more than 50 from the seed. *)
Lemma first_pass_off_origin :
  polyfit (map linearize [0; 5 / 13; 4 / 5]) [0; 200; 240]
  = Ok (10560 / 67, 11000 / 201).
Proof.
  cbn [map]. rewrite linearize_0, linearize_5_13, linearize_4_5.
  apply polyfit_ok; try reflexivity; try discriminate;
    cbn [length dot sum INR]; lra.
Qed.

Lemma mask_off_origin :
  outlier_mask (10560 / 67) (11000 / 201) (map linearize [0; 5 / 13; 4 / 5]) [0; 200; 240]
  = [true; true; false].
Proof.
  cbn [map]. rewrite linearize_0, linearize_5_13, linearize_4_5.
  unfold outlier_mask. cbn [combine map fst snd].
  rewrite (Rltb_true 50 (Rabs (10560 / 67 * 0 + 11000 / 201 - 0)))
    by (unfold Rabs; destruct Rcase_abs; lra).
  rewrite (Rltb_true 50 (Rabs (10560 / 67 * (5 / 12) + 11000 / 201 - 200)))
    by (unfold Rabs; destruct Rcase_abs; lra).
  rewrite (Rltb_false 50 (Rabs (10560 / 67 * (4 / 3) + 11000 / 201 - 240)))
    by (unfold Rabs; destruct Rcase_abs; lra).
  reflexivity.
Qed.

(** C8 as stated fails: the mask flags the seed, first in the sequence,
    whenever the first-pass intercept is further than 50 from 0, and the
    masked arrays then lose it. *)
Lemma seed_flagged_as_outlier :
  ~ (forall xs sinthetas rprime intercept,
       polyfit (map linearize (0 :: sinthetas)) (0 :: xs) = Ok (rprime, intercept) ->
       nth 0 (outlier_mask rprime intercept (map linearize (0 :: sinthetas)) (0 :: xs)) false
       = false).
Proof.
  intros H.
  specialize (H [200; 240] [5 / 13; 4 / 5] _ _ first_pass_off_origin).
  rewrite mask_off_origin in H. discriminate H.
Qed.

(** The fit on the samples of the counterexample: the first pass is off
    the origin, the mask drops the seed and the first sample, and the
    second pass fits the new seed and the last sample. *)
Lemma fit_off_origin :
  fit_xs_and_sinthetas [0; 200; 240] [0; 5 / 13; 4 / 5] = Ok (180, 0).
Proof.
  unfold fit_xs_and_sinthetas.
  rewrite (proj2 (all_finite_iff [0; 5 / 13; 4 / 5])) by (repeat constructor; lra).
  cbn [polyfit_array]. rewrite first_pass_off_origin. cbn [bind].
  rewrite mask_off_origin. cbn [map].
  rewrite linearize_0, linearize_5_13, linearize_4_5.
  unfold reseed. cbn [map negb select].
  apply polyfit_ok; try reflexivity; try discriminate; cbn [length dot sum INR]; lra.
Qed.

(** A run on an image without spots and a ring: the seed, then the
    sample of the ring. *)
Lemma image_loop_blank_ring :
  image_loop {| bt_kind := Ag; bt_surface := S110 |} ([0], [0]) [blank_image; ring_image]
  = Ok ([0; median [300; 306]], [0; 1 * sqrt (150.4 / 150.4) / a Ag]).
Proof.
  cbn [image_loop]. rewrite !image_step_sample.
  change (image_sample _ blank_image) with (@Ok (option (R * R)) None). cbn [bind].
  rewrite image_step_sample, ring_image_sample_Ag. reflexivity.
Qed.

(** C8, as the code has it.  Throughout a run the accumulated samples
    begin with the seed (0, 0).  The first pass fits them, seed first.
    The mask drops that seed entry exactly when the first-pass intercept
    is further than 50 from 0; whether or not it does, the second pass
    fits data that begin with a seed put back in front. *)
Theorem seed_heads_both_passes :
  (forall bt imgs xs sinthetas,
     image_loop bt ([0], [0]) imgs = Ok (xs, sinthetas) ->
     exists xs' sinthetas', xs = 0 :: xs' /\ sinthetas = 0 :: sinthetas')
  /\ (forall xs' sinthetas',
        fit_xs_and_sinthetas (0 :: xs') (0 :: sinthetas')
        = ('(rprime0, intercept0) <-
             polyfit_array (forallb finite_u (0 :: sinthetas'))
                           (0 :: map linearize sinthetas') (0 :: xs') ;;
           let kept_seed := if Rltb 50 (Rabs intercept0) then [] else [0] in
           let outlier := outlier_mask rprime0 intercept0 (map linearize sinthetas') xs' in
           polyfit (0 :: kept_seed ++ select (map negb outlier) (map linearize sinthetas'))
                   (0 :: kept_seed ++ select (map negb outlier) xs'))).
Proof.
  split.
  - intros bt imgs xs ss H. now apply image_loop_seed in H.
  - intros xs' ss'. unfold fit_xs_and_sinthetas. cbn [map]. rewrite linearize_0.
    destruct (polyfit_array (forallb finite_u (0 :: ss'))
                (0 :: map linearize ss') (0 :: xs')) as [[r0 i0] | e |];
      cbn [bind]; try reflexivity.
    unfold outlier_mask, reseed. cbn [combine map fst snd].
    replace (r0 * 0 + i0 - 0) with i0 by ring.
    destruct (Rltb 50 (Rabs i0)); reflexivity.
Qed.

Lemma seed_heads_both_passes_witness :
  (image_loop {| bt_kind := Ag; bt_surface := S110 |} ([0], [0]) [blank_image; ring_image]
   = Ok ([0; median [300; 306]], [0; 1 * sqrt (150.4 / 150.4) / a Ag])
   /\ exists xs' sinthetas',
        [0; median [300; 306]] = 0 :: xs'
        /\ [0; 1 * sqrt (150.4 / 150.4) / a Ag] = 0 :: sinthetas')
  /\ (fit_xs_and_sinthetas (0 :: [200; 240]) (0 :: [5 / 13; 4 / 5]) = Ok (180, 0)
      /\ fit_xs_and_sinthetas (0 :: [200; 240]) (0 :: [5 / 13; 4 / 5])
         = ('(rprime0, intercept0) <-
              polyfit_array (forallb finite_u (0 :: [5 / 13; 4 / 5]))
                            (0 :: map linearize [5 / 13; 4 / 5]) (0 :: [200; 240]) ;;
            let kept_seed := if Rltb 50 (Rabs intercept0) then [] else [0] in
            let outlier :=
              outlier_mask rprime0 intercept0 (map linearize [5 / 13; 4 / 5]) [200; 240] in
            polyfit (0 :: kept_seed
                       ++ select (map negb outlier) (map linearize [5 / 13; 4 / 5]))
                    (0 :: kept_seed ++ select (map negb outlier) [200; 240]))).
Proof.
  split.
  - split; [exact image_loop_blank_ring |].
    exact (proj1 seed_heads_both_passes _ [blank_image; ring_image] _ _
             image_loop_blank_ring).
  - split; [exact fit_off_origin |].
    exact (proj2 seed_heads_both_passes [200; 240] [5 / 13; 4 / 5]).
Defined.

(** ** Witnesses *)

Lemma nonempty_pair_list : Forall (fun t : list R => t <> []) [[0; PI]].
Proof. constructor; [discriminate | constructor]. Qed.

Lemma calc_110_au_first_accepted_witness :
  [[0; PI]] <> [] /\ well_formed [[100; 106]] [[0; PI]]
  /\ exists ref r,
       py_min (hd [] [[0; PI]]) = Ok ref /\
       calc_x_and_sintheta {| bt_kind := Au; bt_surface := S110 |} [[100; 106]] [[0; PI]] 150.4
       = Ok r /\
       match r with
       | Some (x, sintheta) =>
           exists j c t,
             nth_error [[100; 106]] j = Some c /\ nth_error [[0; PI]] j = Some t /\
             au_accepts ref 150.4 c t /\
             x = median c /\
             sintheta = au_order 150.4 x * lambda 150.4 / (2 * a Au) /\
             (forall i c' t', (i < j)%nat ->
                nth_error [[100; 106]] i = Some c' -> nth_error [[0; PI]] i = Some t' ->
                ~ au_accepts ref 150.4 c' t')
       | None =>
           forall j c t,
             nth_error [[100; 106]] j = Some c -> nth_error [[0; PI]] j = Some t ->
             ~ au_accepts ref 150.4 c t
       end.
Proof.
  assert (Hne : [[0; PI]] <> []) by discriminate.
  assert (Hwf : well_formed [[100; 106]] [[0; PI]]).
  { split; [reflexivity | exact nonempty_pair_list]. }
  split; [exact Hne |]. split; [exact Hwf |].
  exact (calc_110_au_first_accepted 150.4 [[100; 106]] [[0; PI]] Hne Hwf).
Defined.

Lemma valid_iff_opposed_last_pair_witness :
  nth_error [[0; PI]] 0 = Some [0; PI]
  /\ exists (v : bool) (t' : list R),
       nth_error (fst (valid_loop (length [[0; PI]]) [[0; PI]])) 0 = Some v /\
       nth_error (snd (valid_loop (length [[0; PI]]) [[0; PI]])) 0 = Some t' /\
       (v = true <->
          exists i1 i2 theta1 theta2,
            (i1 < i2)%nat /\ nth_error [0; PI] i1 = Some theta1 /\
            nth_error [0; PI] i2 = Some theta2 /\
            Rabs (PI - Rabs (theta1 - theta2)) < 0.1) /\
       (v = true ->
          exists pre theta1 theta2 post,
            combinations2 [0; PI] = pre ++ (theta1, theta2) :: post /\
            Rabs (PI - Rabs (theta1 - theta2)) < 0.1 /\
            (forall k, In k post -> ~ Rabs (PI - Rabs (fst k - snd k)) < 0.1) /\
            t' = [theta1; theta2]) /\
       (v = false -> t' = [0; PI]).
Proof.
  split; [reflexivity |].
  exact (valid_iff_opposed_last_pair [[0; PI]] 0 [0; PI] eq_refl).
Defined.

(** * Further properties *)

(** ** Clustering: what it raises and when it finds nothing *)

Lemma length_select_le {A : Type} (mask : list bool) :
  forall l : list A, (length (select mask l) <= length l)%nat.
Proof.
  induction mask as [| b m IH]; intros [| y l]; cbn [select length]; try lia.
  specialize (IH l). destruct b; cbn [length]; lia.
Qed.

Lemma py_index_lt {A : Type} (l : list A) (j : nat) :
  (j < length l)%nat -> exists v, py_index l j = Ok v /\ In v l.
Proof.
  intros H. unfold py_index. destruct (nth_error l j) eqn:E.
  - exists a0. split; [reflexivity |]. now apply nth_error_In in E.
  - apply nth_error_None in E. lia.
Qed.

(** What one iteration of the second loop can do: leave the clusters as
    they are, or add the radii and angles one mask selects; the mask
    runs from the current start to a bin of [bin_freqs] plus the gap. *)
Lemma walk_step_cases (x theta : list R) (bin_freqs : list (R * nat)) (st st' : walk)
    (j : nat) :
  walk_step x theta bin_freqs st j = Ok st' ->
  (w_start st' = w_start st \/ exists b, In b bin_freqs /\ w_start st' = fst b)
  /\ ((w_cluster st' = w_cluster st /\ w_cluster_theta st' = w_cluster_theta st)
      \/ exists e,
           In e bin_freqs /\
           (1 < length (select (x_range_of x (w_start st) (fst e)) x))%nat /\
           w_cluster st' = w_cluster st ++ [select (x_range_of x (w_start st) (fst e)) x] /\
           w_cluster_theta st'
           = w_cluster_theta st ++ [select (x_range_of x (w_start st) (fst e)) theta]).
Proof.
  unfold walk_step. intros H.
  apply bind_ok in H as (bf & Hbf & H).
  assert (Hin : In bf bin_freqs).
  { unfold py_index in Hbf. destruct (nth_error bin_freqs j) eqn:E; [| discriminate].
    injection Hbf as <-. now apply nth_error_In in E. }
  destruct (Rltb (w_prev_bin st + delta_bin) (fst bf)
            || Nat.eqb j (length bin_freqs - 1)).
  - apply bind_ok in H as (st1 & H1 & H). injection H as <-.
    cbn [w_start w_cluster w_cluster_theta].
    split; [right; now exists bf |].
    destruct (negb (Nat.eqb j 0)); [| injection H1 as <-; now left].
    apply bind_ok in H1 as (end_ & Hend & H1).
    assert (He : exists e, In e bin_freqs /\ end_ = fst e).
    { destruct (Nat.eqb j (length bin_freqs - 1)).
      - injection Hend as <-. now exists bf.
      - apply bind_ok in Hend as (p & Hp & Hend). injection Hend as <-.
        exists p. split; [| reflexivity].
        unfold py_index in Hp. destruct (nth_error bin_freqs (j - 1)) eqn:E; [| discriminate].
        injection Hp as <-. now apply nth_error_In in E. }
    destruct He as (e & He & ->).
    destruct (Nat.ltb 1 (length (select (x_range_of x (w_start st) (fst e)) x))) eqn:E.
    + apply bind_ok in H1 as (ts & Hts & H1). injection H1 as <-.
      cbn [w_cluster w_cluster_theta]. right. exists e.
      apply Nat.ltb_lt in E. repeat split; try assumption.
      unfold mask_index in Hts.
      destruct (Nat.eqb (length theta) (length (x_range_of x (w_start st) (fst e))));
        [| discriminate].
      now injection Hts as <-.
    + injection H1 as <-. now left.
  - injection H as <-. cbn [w_start w_cluster w_cluster_theta].
    split; [now left | now left].
Qed.

Lemma walk_loop_preserves (P : walk -> Prop) (x theta : list R)
    (bin_freqs : list (R * nat)) :
  (forall st st' j, P st -> walk_step x theta bin_freqs st j = Ok st' -> P st') ->
  forall js st st', P st -> walk_loop x theta bin_freqs st js = Ok st' -> P st'.
Proof.
  intros Hstep. induction js as [| j js IH]; intros st st' HP H; cbn [walk_loop] in H.
  - now injection H as <-.
  - apply bind_ok in H as (st1 & H1 & H). eauto.
Qed.

(** The second loop raises only when [theta] and [x] differ in length. *)
Lemma walk_step_ok (x theta : list R) (bin_freqs : list (R * nat)) (st : walk) (j : nat) :
  (j < length bin_freqs)%nat ->
  length x = length theta \/ (length x <= 1)%nat ->
  exists st', walk_step x theta bin_freqs st j = Ok st'.
Proof.
  intros Hj Hlen. unfold walk_step.
  destruct (py_index_lt bin_freqs j Hj) as (bf & -> & _). cbn [bind].
  destruct (Rltb (w_prev_bin st + delta_bin) (fst bf)
            || Nat.eqb j (length bin_freqs - 1)); [| eauto].
  destruct (negb (Nat.eqb j 0)); cbn [bind]; [| eauto].
  assert (Hend : exists end_,
            (if Nat.eqb j (length bin_freqs - 1) then Ok (fst bf)
             else (p <- py_index bin_freqs (j - 1) ;; Ok (fst p))) = Ok end_).
  { destruct (Nat.eqb j (length bin_freqs - 1)); [eauto |].
    destruct (py_index_lt bin_freqs (j - 1) ltac:(lia)) as (p & -> & _).
    cbn [bind]. eauto. }
  destruct Hend as (end_ & ->). cbn [bind].
  destruct (Nat.ltb 1 (length (select (x_range_of x (w_start st) end_) x))) eqn:E;
    cbn [bind]; [| eauto].
  destruct Hlen as [Hlen | Hsmall].
  - unfold mask_index, x_range_of. rewrite length_map, <- Hlen, Nat.eqb_refl.
    cbn [bind]. eauto.
  - apply Nat.ltb_lt in E.
    pose proof (length_select_le (x_range_of x (w_start st) end_) x). lia.
Qed.

Lemma walk_loop_ok (x theta : list R) (bin_freqs : list (R * nat)) :
  length x = length theta \/ (length x <= 1)%nat ->
  forall js st,
    Forall (fun j => (j < length bin_freqs)%nat) js ->
    exists st', walk_loop x theta bin_freqs st js = Ok st'.
Proof.
  intros Hlen. induction js as [| j js IH]; intros st Hjs; cbn [walk_loop]; [eauto |].
  inversion Hjs as [| ? ? Hj Hrest]; subst.
  destruct (walk_step_ok x theta bin_freqs st j Hj Hlen) as (st1 & ->). cbn [bind].
  now apply IH.
Qed.

Lemma seq_below (n : nat) : Forall (fun j => (j < n)%nat) (seq 0 n).
Proof. apply Forall_forall. intros j Hj. apply in_seq in Hj. lia. Qed.

Lemma clustering_after_walk (x theta : list R) (st : walk) :
  walk_loop x theta (bin_freqs_of x) walk_init (seq 0 (length (bin_freqs_of x))) = Ok st ->
  clustering x theta
  = (let valid := map (fun t => fst (judge t)) (w_cluster_theta st) in
     if Nat.eqb (length (select valid (w_cluster st))) 0 then Ok None
     else Ok (Some (select valid (w_cluster st),
                    select valid (map (fun t => snd (judge t)) (w_cluster_theta st))))).
Proof.
  intros Hwalk. unfold clustering. rewrite Hwalk. cbn [bind].
  assert (Hinv : walk_inv st).
  { apply (walk_loop_inv _ _ _ _ walk_init st) in Hwalk; [exact Hwalk |].
    split; [reflexivity | constructor]. }
  destruct Hinv as [Hlen _]. rewrite Hlen, valid_loop_judge. reflexivity.
Qed.

(** [clustering] on arrays of one length. *)
Lemma clustering_ok (x theta : list R) :
  length x = length theta ->
  exists r, clustering x theta = Ok r.
Proof.
  intros Hlen.
  destruct (walk_loop_ok x theta (bin_freqs_of x) (or_introl Hlen)
              (seq 0 (length (bin_freqs_of x))) walk_init (seq_below _)) as (st & Hst).
  rewrite (clustering_after_walk x theta st Hst). cbn zeta.
  destruct (Nat.eqb _ 0); eauto.
Qed.

(** With as many angles as radii, [clustering] raises nothing: it
    returns clusters or [None]. *)
Theorem clustering_never_raises (x theta : list R) :
  length x = length theta ->
  exists r, clustering x theta = Ok r.
Proof. exact (clustering_ok x theta). Qed.

Lemma clustering_never_raises_witness :
  length [100; 101; 106] = length [0; PI; 1]
  /\ exists r, clustering [100; 101; 106] [0; PI; 1] = Ok r.
Proof.
  split; [reflexivity |].
  exact (clustering_never_raises [100; 101; 106] [0; PI; 1] eq_refl).
Defined.

(** Fewer than two radii never make a cluster, whatever the angles
    (even angles in a different number). *)
Theorem clustering_single_radius (x theta : list R) :
  (length x <= 1)%nat -> clustering x theta = Ok None.
Proof.
  intros Hlen.
  destruct (walk_loop_ok x theta (bin_freqs_of x) (or_intror Hlen)
              (seq 0 (length (bin_freqs_of x))) walk_init (seq_below _)) as (st & Hst).
  rewrite (clustering_after_walk x theta st Hst). cbn zeta.
  assert (Hnone : w_cluster st = []).
  { apply (walk_loop_preserves (fun s => w_cluster s = []) x theta (bin_freqs_of x))
      with (js := seq 0 (length (bin_freqs_of x))) (st := walk_init);
      [| reflexivity | exact Hst].
    intros s s' j Hs Hstep.
    apply walk_step_cases in Hstep as (_ & [[Hc _] | (e & _ & Hlt & _)]).
    - congruence.
    - pose proof (length_select_le (x_range_of x (w_start s) (fst e)) x). lia. }
  rewrite Hnone. now destruct (map _ _).
Qed.

Lemma clustering_single_radius_witness :
  (length [300] <= 1)%nat /\ clustering [300] [0; PI] = Ok None.
Proof.
  assert (H : (length [300] <= 1)%nat) by (cbn; lia).
  split; [exact H |].
  exact (clustering_single_radius [300] [0; PI] H).
Defined.

(** Radii that all fall into one histogram bin occupy one entry of
    [bin_freqs] at most. *)
Lemma bin_freqs_one_bin (x : list R) (j : nat) :
  (j < 100)%nat ->
  Forall (fun v => bins j <= v < bins (S j)) x ->
  (length (bin_freqs_of x) <= 1)%nat.
Proof.
  intros Hj Hall. unfold bin_freqs_of.
  replace (seq 0 100) with (seq 0 j ++ seq j 1 ++ seq (S j) (99 - j)).
  - rewrite !flat_map_app.
    rewrite (no_bins x 0 j); [| lia |].
    + rewrite (no_bins x (S j) (99 - j)); [| lia |].
      * cbn [seq flat_map app]. rewrite !app_nil_r.
        destruct (Nat.eqb (freq x j) 0); cbn [length]; lia.
      * eapply Forall_impl; [| exact Hall]. cbn beta. intros v Hv. left. lra.
    + eapply Forall_impl; [| exact Hall]. cbn beta. intros v Hv.
      right; left. cbn [Nat.add]. split; [lra | lia].
  - replace 100%nat with (j + (1 + (99 - j)))%nat at 1 by lia.
    rewrite !seq_app. cbn [Nat.add]. repeat f_equal. lia.
Qed.

(** Radii that all fall into one histogram bin make no cluster, however
    many they are and whatever their angles: the second loop closes a
    cluster only at an occupied bin other than the first. *)
Theorem clustering_one_bin (x theta : list R) (j : nat) :
  (j < 100)%nat ->
  Forall (fun v => bins j <= v < bins (S j)) x ->
  clustering x theta = Ok None.
Proof.
  intros Hj Hall. pose proof (bin_freqs_one_bin x j Hj Hall) as Hlen.
  unfold clustering.
  destruct (bin_freqs_of x) as [| b [| b' bfs]]; [| | cbn [length] in Hlen; lia].
  - reflexivity.
  - cbn [length seq walk_loop]. unfold walk_step.
    cbn [py_index nth_error bind length Nat.sub Nat.eqb negb].
    rewrite orb_true_r. reflexivity.
Qed.

Lemma clustering_one_bin_witness :
  (60 < 100)%nat
  /\ Forall (fun v => bins 60 <= v < bins (S 60)) [300; 301; 302]
  /\ clustering [300; 301; 302] [0; PI; 1] = Ok None.
Proof.
  assert (Hj : (60 < 100)%nat) by lia.
  assert (Hall : Forall (fun v => bins 60 <= v < bins (S 60)) [300; 301; 302]).
  { repeat constructor; lit. }
  split; [exact Hj |]. split; [exact Hall |].
  exact (clustering_one_bin [300; 301; 302] [0; PI; 1] 60 Hj Hall).
Defined.

(** ** Clustering: what the clusters are made of *)

Lemma select_mask_in (f : R -> bool) (v : R) :
  forall x : list R, In v (select (map f x) x) -> In v x /\ f v = true.
Proof.
  induction x as [| y x IH]; cbn [map select]; [contradiction |].
  destruct (f y) eqn:E.
  - intros [<- | H]; [split; [now left | exact E] |].
    destruct (IH H). split; [now right | assumption].
  - intros H. destruct (IH H). split; [now right | assumption].
Qed.

Lemma select_in {A : Type} (v : A) (mask : list bool) :
  forall l : list A, In v (select mask l) -> In v l.
Proof.
  induction mask as [| b m IH]; intros [| y l]; cbn [select]; try contradiction.
  destruct b.
  - intros [<- | H]; [now left | right; now apply IH].
  - intros H. right. now apply IH.
Qed.

Lemma bin_freqs_edges (x : list R) :
  Forall (fun b => 0 <= fst b <= 495) (bin_freqs_of x).
Proof.
  unfold bin_freqs_of. apply Forall_flat_map. apply Forall_forall.
  intros j Hj. apply in_seq in Hj.
  destruct (Nat.eqb (freq x j) 0); constructor; [| constructor].
  cbn [fst]. unfold bins. split.
  - apply IZR_le. lia.
  - apply IZR_le. lia.
Qed.

(** What the second loop keeps true of the radii and angles it selects. *)
Lemma walk_members (x theta : list R) (st : walk) :
  walk_loop x theta (bin_freqs_of x) walk_init (seq 0 (length (bin_freqs_of x))) = Ok st ->
  Forall (fun c => Forall (fun v => In v x /\ 0 <= v <= 505) c) (w_cluster st)
  /\ Forall (fun t => Forall (fun w => In w theta) t) (w_cluster_theta st).
Proof.
  intros Hwalk.
  pose proof (bin_freqs_edges x) as Hedges. rewrite Forall_forall in Hedges.
  enough (H : 0 <= w_start st
              /\ Forall (fun c => Forall (fun v => In v x /\ 0 <= v <= 505) c) (w_cluster st)
              /\ Forall (fun t => Forall (fun w => In w theta) t) (w_cluster_theta st))
    by (destruct H as (_ & Hc & Ht); now split).
  apply (walk_loop_preserves
           (fun s => 0 <= w_start s
                     /\ Forall (fun c => Forall (fun v => In v x /\ 0 <= v <= 505) c)
                               (w_cluster s)
                     /\ Forall (fun t => Forall (fun w => In w theta) t)
                               (w_cluster_theta s))
           x theta (bin_freqs_of x))
    with (js := seq 0 (length (bin_freqs_of x))) (st := walk_init);
    [| cbn; repeat split; try constructor; lra | exact Hwalk].
  intros s s' j (Hstart & Hc & Ht) Hstep.
  apply walk_step_cases in Hstep as (Hs' & Hcl).
  split; [| destruct Hcl as [[-> ->] | (e & He & _ & -> & ->)]].
  - destruct Hs' as [-> | (b & Hb & ->)]; [exact Hstart | now apply Hedges].
  - now split.
  - split.
    + apply Forall_app; split; [exact Hc |]. constructor; [| constructor].
      apply Forall_forall. intros v Hv.
      unfold x_range_of in Hv. apply select_mask_in in Hv as [Hin Hv].
      apply andb_prop in Hv as [Hlo Hhi].
      apply Rleb_iff in Hlo, Hhi. specialize (Hedges e He). unfold delta_bin in Hhi.
      split; [exact Hin | lra].
    + apply Forall_app; split; [exact Ht |]. constructor; [| constructor].
      apply Forall_forall. intros w Hw. now apply select_in in Hw.
Qed.

(** Every radius of every cluster [clustering] returns is one of the
    radii it was given and lies between 0 and 505. *)
Theorem clustering_radii_from_input (x theta : list R) (cluster cluster_theta : list (list R)) :
  clustering x theta = Ok (Some (cluster, cluster_theta)) ->
  Forall (fun c => Forall (fun v => In v x /\ 0 <= v <= 505) c) cluster.
Proof.
  intros H. pose proof H as H0. unfold clustering in H0.
  apply bind_ok in H0 as (st & Hwalk & _).
  rewrite (clustering_after_walk x theta st Hwalk) in H. cbn zeta in H.
  destruct (Nat.eqb _ 0); [discriminate |]. injection H as <- _.
  apply Forall_select. now apply (walk_members x theta st).
Qed.

Lemma clustering_radii_from_input_witness :
  clustering [100; 101; 106] [0; PI; 1] = Ok (Some ([[100; 101; 106]], [[0; PI]]))
  /\ Forall (fun c => Forall (fun v => In v [100; 101; 106] /\ 0 <= v <= 505) c)
            [[100; 101; 106]].
Proof.
  split; [exact clustering_three_radii |].
  exact (clustering_radii_from_input _ _ _ _ clustering_three_radii).
Defined.

Lemma judged_opposed (theta : list R) (cts : list (list R)) :
  Forall (fun t => Forall (fun w => In w theta) t) cts ->
  Forall (fun t' => exists theta1 theta2,
                      t' = [theta1; theta2] /\ In theta1 theta /\ In theta2 theta /\
                      Rabs (PI - Rabs (theta1 - theta2)) < 0.1)
         (select (map (fun t => fst (judge t)) cts) (map (fun t => snd (judge t)) cts)).
Proof.
  induction 1 as [| t cts Ht _ IH]; cbn [map select]; [constructor |].
  destruct (fst (judge t)) eqn:E; [| exact IH].
  constructor; [| exact IH].
  destruct (judge_spec t) as (_ & Hlast & _).
  destruct (Hlast E) as (pre & [theta1 theta2] & post & Hks & Hk & _ & ->).
  exists theta1, theta2. cbn [fst snd].
  assert (Hin : In (theta1, theta2) (combinations2 t)) by (rewrite Hks; apply in_elt).
  apply combinations2_pairs in Hin as (i1 & i2 & _ & H1 & H2).
  apply nth_error_In in H1, H2. rewrite Forall_forall in Ht.
  apply opposed_iff in Hk. cbn [fst snd] in Hk.
  repeat split; auto.
Qed.

(** Every angle sequence [clustering] returns is a pair of two of the
    angles it was given, and the pair passes the opposition test:
    | pi - |theta1 - theta2| | < 0.1. *)
Theorem clustering_angles_opposed (x theta : list R) (cluster cluster_theta : list (list R)) :
  clustering x theta = Ok (Some (cluster, cluster_theta)) ->
  Forall (fun t => exists theta1 theta2,
                     t = [theta1; theta2] /\ In theta1 theta /\ In theta2 theta /\
                     Rabs (PI - Rabs (theta1 - theta2)) < 0.1)
         cluster_theta.
Proof.
  intros H. pose proof H as H0. unfold clustering in H0.
  apply bind_ok in H0 as (st & Hwalk & _).
  rewrite (clustering_after_walk x theta st Hwalk) in H. cbn zeta in H.
  destruct (Nat.eqb _ 0); [discriminate |]. injection H as _ <-.
  apply judged_opposed. now apply (walk_members x theta st).
Qed.

Lemma clustering_angles_opposed_witness :
  clustering [100; 101; 106] [0; PI; 1] = Ok (Some ([[100; 101; 106]], [[0; PI]]))
  /\ Forall (fun t => exists theta1 theta2,
                        t = [theta1; theta2] /\ In theta1 [0; PI; 1] /\
                        In theta2 [0; PI; 1] /\
                        Rabs (PI - Rabs (theta1 - theta2)) < 0.1)
            [[0; PI]].
Proof.
  split; [exact clustering_three_radii |].
  exact (clustering_angles_opposed _ _ _ _ clustering_three_radii).
Defined.

(** ** The line fit: errors and exact data *)

Lemma polyfit_raises_type (x y : list R) :
  polyfit x y = Raise TypeError <-> x = [] \/ length x <> length y.
Proof.
  unfold polyfit.
  destruct (Nat.eqb (length x) 0) eqn:E0.
  - apply Nat.eqb_eq, length_zero_iff_nil in E0. split; auto.
  - apply Nat.eqb_neq in E0.
    assert (Hne : x <> []) by (intros ->; now apply E0).
    destruct (Nat.eqb (length x) (length y)) eqn:E; cbn [negb].
    + apply Nat.eqb_eq in E.
      assert (Hno : ~ (x = [] \/ length x <> length y)) by (intros [H | H]; contradiction).
      destruct (forallb _ x); [split; [discriminate | intros H; contradiction] |].
      destruct (Reqb _ 0); cbn zeta; (split; [intros H; discriminate H | intros H; contradiction]).
    + apply Nat.eqb_neq in E. split; auto.
Qed.

Lemma polyfit_raise_kinds (x y : list R) (e : exn) :
  polyfit x y = Raise e -> e = TypeError \/ e = LinAlgError.
Proof.
  unfold polyfit.
  destruct (Nat.eqb (length x) 0); [intros H; injection H as <-; auto |].
  destruct (negb (Nat.eqb (length x) (length y))); [intros H; injection H as <-; auto |].
  destruct (forallb _ x); [intros H; injection H as <-; auto |].
  destruct (Reqb _ 0); cbn zeta; intros H; discriminate H.
Qed.

Lemma polyfit_array_ok (finite : bool) (x y : list R) (p : R * R) :
  polyfit_array finite x y = Ok p -> finite = true /\ polyfit x y = Ok p.
Proof.
  unfold polyfit_array. destruct finite; [now split |].
  destruct (Nat.eqb (length x) 0); [discriminate |].
  destruct (negb (Nat.eqb (length x) (length y))); discriminate.
Qed.

Lemma polyfit_array_raises_type (finite : bool) (x y : list R) :
  polyfit_array finite x y = Raise TypeError <-> x = [] \/ length x <> length y.
Proof.
  unfold polyfit_array. destruct finite; [apply polyfit_raises_type |].
  destruct (Nat.eqb (length x) 0) eqn:E0.
  - apply Nat.eqb_eq, length_zero_iff_nil in E0. split; auto.
  - apply Nat.eqb_neq in E0.
    assert (Hne : x <> []) by (intros ->; now apply E0).
    destruct (Nat.eqb (length x) (length y)) eqn:E; cbn [negb].
    + apply Nat.eqb_eq in E. split; [discriminate | intros [H | H]; contradiction].
    + apply Nat.eqb_neq in E. split; auto.
Qed.

Lemma polyfit_array_raise_kinds (finite : bool) (x y : list R) (e : exn) :
  polyfit_array finite x y = Raise e -> e = TypeError \/ e = LinAlgError.
Proof.
  unfold polyfit_array. destruct finite; [apply polyfit_raise_kinds |].
  destruct (Nat.eqb (length x) 0); [intros H; injection H as <-; auto |].
  destruct (negb (Nat.eqb (length x) (length y))); intros H; injection H as <-; auto.
Qed.

Lemma polyfit_array_unmodelled (finite : bool) (x y : list R) :
  polyfit_array finite x y = Unmodelled -> x <> [] /\ length x = length y.
Proof.
  unfold polyfit_array, polyfit.
  destruct (Nat.eqb (length x) 0) eqn:E0; [destruct finite; discriminate |].
  destruct (Nat.eqb (length x) (length y)) eqn:E; cbn [negb];
    [| destruct finite; discriminate].
  intros _. apply Nat.eqb_neq in E0. apply Nat.eqb_eq in E.
  split; [intros ->; now apply E0 | exact E].
Qed.

Lemma fit_shape (xs sinthetas : list R) :
  (map linearize sinthetas = [] \/ length (map linearize sinthetas) <> length xs)
  <-> (sinthetas = [] \/ length xs <> length sinthetas).
Proof.
  rewrite length_map. split; intros [H | H]; auto.
  - left. now apply map_eq_nil in H.
  - left. now subst.
Qed.

(** The second [polyfit] of the fit is given arrays of one length that
    start with the new seed: its shape checks pass. *)
Lemma second_pass_no_type_error (outlier : list bool) (x xs : list R) :
  length x = length xs ->
  polyfit (reseed outlier x) (reseed outlier xs) <> Raise TypeError.
Proof.
  intros Hlen H. apply polyfit_raises_type in H as [H | H]; [discriminate H |].
  apply H. unfold reseed. cbn [length]. f_equal. now apply length_select_same.
Qed.

(** Where the [TypeError] of the fit comes from. *)
Lemma fit_raises_type (xs sinthetas : list R) :
  fit_xs_and_sinthetas xs sinthetas = Raise TypeError
  <-> sinthetas = [] \/ length xs <> length sinthetas.
Proof.
  rewrite <- fit_shape. unfold fit_xs_and_sinthetas.
  destruct (polyfit_array (forallb finite_u sinthetas) (map linearize sinthetas) xs)
    as [[r0 i0] | e0 |] eqn:E; cbn [bind].
  - apply polyfit_array_ok in E as [_ E]. apply polyfit_inv in E as (Hlen & Hne & _).
    split.
    + intros H. now apply second_pass_no_type_error in H.
    + intros [H | H]; contradiction.
  - rewrite <- (polyfit_array_raises_type (forallb finite_u sinthetas)), E.
    reflexivity.
  - apply polyfit_array_unmodelled in E as [Hne Hlen].
    split; [discriminate | intros [H | H]; contradiction].
Qed.

Lemma fit_raise_kinds (xs sinthetas : list R) (e : exn) :
  fit_xs_and_sinthetas xs sinthetas = Raise e -> e = TypeError \/ e = LinAlgError.
Proof.
  unfold fit_xs_and_sinthetas.
  destruct (polyfit_array (forallb finite_u sinthetas) (map linearize sinthetas) xs)
    as [[r0 i0] | e0 |] eqn:E; cbn [bind].
  - apply polyfit_raise_kinds.
  - intros H. injection H as <-. now apply polyfit_array_raise_kinds in E.
  - discriminate.
Qed.

(** A sine of absolute value 1 or more gives an inf or a nan, and all
    sines 0 give a column of zeros: the first [polyfit] fails. *)
Lemma fit_raises_linalg (xs sinthetas : list R) :
  sinthetas <> [] -> length xs = length sinthetas ->
  Exists (fun s => 1 <= s ^ 2) sinthetas \/ Forall (fun s => s = 0) sinthetas ->
  fit_xs_and_sinthetas xs sinthetas = Raise LinAlgError.
Proof.
  intros Hne Hlen Hbad. unfold fit_xs_and_sinthetas.
  assert (Hn0 : Nat.eqb (length (map linearize sinthetas)) 0 = false).
  { apply Nat.eqb_neq. rewrite length_map. intros E.
    apply Hne. now apply length_zero_iff_nil. }
  assert (Hn1 : Nat.eqb (length (map linearize sinthetas)) (length xs) = true).
  { apply Nat.eqb_eq. now rewrite length_map. }
  destruct (forallb finite_u sinthetas) eqn:Efin.
  - destruct Hbad as [Hbad | Hzero].
    + apply all_finite_iff in Efin. rewrite Forall_forall in Efin.
      apply Exists_exists in Hbad as (s & Hs & Hbad). specialize (Efin s Hs). lra.
    + cbn [polyfit_array]. unfold polyfit. rewrite Hn0, Hn1. cbn [negb].
      replace (forallb (fun u => Reqb u 0) (map linearize sinthetas)) with true;
        [reflexivity |].
      symmetry. apply all_zero_iff, Forall_map.
      eapply Forall_impl; [| exact Hzero]. intros s ->. apply linearize_0.
  - cbn [polyfit_array]. rewrite Hn0, Hn1. reflexivity.
Qed.

(** [fit_xs_and_sinthetas] raises [TypeError] exactly when it is given
    no sample or sequences of different lengths.  On sequences of one
    length that are not empty it raises [LinAlgError] when some sine has
    absolute value 1 or more, and when all sines are 0.  It raises
    nothing but these two. *)
Theorem fit_raises_iff (xs sinthetas : list R) :
  (fit_xs_and_sinthetas xs sinthetas = Raise TypeError
   <-> sinthetas = [] \/ length xs <> length sinthetas)
  /\ (sinthetas <> [] -> length xs = length sinthetas ->
      Exists (fun s => 1 <= s ^ 2) sinthetas \/ Forall (fun s => s = 0) sinthetas ->
      fit_xs_and_sinthetas xs sinthetas = Raise LinAlgError)
  /\ (forall e, fit_xs_and_sinthetas xs sinthetas = Raise e ->
                e = TypeError \/ e = LinAlgError).
Proof.
  split; [apply fit_raises_type |]. split; [apply fit_raises_linalg |].
  intros e. apply fit_raise_kinds.
Qed.

Lemma fit_raises_iff_witness :
  fit_xs_and_sinthetas [0; 150; 300] [0; 0.6; 1] = Raise LinAlgError.
Proof.
  apply (proj1 (proj2 (fit_raises_iff [0; 150; 300] [0; 0.6; 1]))).
  - discriminate.
  - reflexivity.
  - left. right. right. left. lra.
Defined.

Lemma cauchy_sums (l : list R) : 0 <= INR (length l) * dot l l - sum l * sum l.
Proof.
  induction l as [| v l IH]; [cbn; lra |].
  change (length (v :: l)) with (S (length l)). rewrite S_INR. cbn [dot sum].
  (* the new terms are the sum of the squares of the distances to [v] *)
  pose proof (sse_nonneg (-1) v l (map (fun _ => 0) l)) as Hsq.
  rewrite sse_expand in Hsq by (now rewrite length_map).
  assert (Hz1 : dot l (map (fun _ => 0) l) = 0).
  { clear. induction l as [| u l IH]; cbn; [reflexivity | rewrite IH; ring]. }
  assert (Hz2 : sum (map (fun _ => 0) l) = 0).
  { clear. induction l as [| u l IH]; cbn; [reflexivity | rewrite IH; ring]. }
  assert (Hz3 : dot (map (fun _ => 0) l) (map (fun _ => 0) l) = 0).
  { clear. induction l as [| u l IH]; cbn; [reflexivity | rewrite IH; ring]. }
  rewrite Hz1, Hz2, Hz3 in Hsq. nra.
Qed.

Lemma dot_self_nonneg (l : list R) : 0 <= dot l l.
Proof. induction l as [| v l IH]; cbn [dot]; [lra | nra]. Qed.

Lemma dot_self_pos (l : list R) : l <> [] -> Forall (fun u => 0 < u) l -> 0 < dot l l.
Proof.
  destruct l as [| v l]; [contradiction |]. intros _ H.
  inversion H; subst. cbn [dot]. pose proof (dot_self_nonneg l). nra.
Qed.

(** Putting the seed in front of data that are not all zero makes the
    system full rank. *)
Lemma seeded_full_rank (l : list R) :
  0 < dot l l ->
  0 < INR (length (0 :: l)) * dot (0 :: l) (0 :: l) - sum (0 :: l) * sum (0 :: l).
Proof.
  intros H. pose proof (cauchy_sums l).
  change (length (0 :: l)) with (S (length l)). rewrite S_INR. cbn [dot sum]. nra.
Qed.

(** Data on the line [v = r u]: the fit is that line ... *)
Lemma polyfit_on_line (r : R) (us vs : list R) :
  Forall2 (fun u v => v = r * u) us vs ->
  0 < INR (length us) * dot us us - sum us * sum us ->
  polyfit us vs = Ok (r, 0).
Proof.
  intros Hline Hdet.
  assert (Hsums : dot us vs = r * dot us us /\ sum vs = r * sum us).
  { clear Hdet.
    induction Hline as [| u v us vs -> _ [IHd IHs]]; cbn [dot sum]; [split; ring |].
    rewrite IHd, IHs. split; ring. }
  destruct Hsums as [Hd Hs].
  assert (Hne : us <> []).
  { intros ->. cbn in Hdet. lra. }
  assert (Hn : INR (length us) <> 0).
  { apply not_0_INR. intros E. apply Hne. now apply length_zero_iff_nil. }
  apply polyfit_ok.
  - now apply Forall2_length in Hline.
  - exact Hne.
  - lra.
  - rewrite Hd, Hs. field. lra.
  - rewrite Hs. field. exact Hn.
Qed.

(** ... and the mask flags none of them. *)
Lemma reseed_on_line (r : R) (us vs : list R) :
  Forall2 (fun u v => v = r * u) us vs ->
  reseed (outlier_mask r 0 us vs) us = 0 :: us
  /\ reseed (outlier_mask r 0 us vs) vs = 0 :: vs.
Proof.
  unfold reseed, outlier_mask. intros Hline.
  enough (H : select (map negb (map (fun p => Rltb 50 (Rabs (r * fst p + 0 - snd p)))
                                    (combine us vs))) us = us
              /\ select (map negb (map (fun p => Rltb 50 (Rabs (r * fst p + 0 - snd p)))
                                       (combine us vs))) vs = vs)
    by (destruct H as [-> ->]; now split).
  induction Hline as [| u v us vs -> _ [IHu IHv]]; [now split |].
  cbn [combine map fst snd].
  replace (r * u + 0 - r * u) with 0 by ring.
  rewrite Rabs_R0, (Rltb_false 50 0) by lra. cbn [negb select].
  now rewrite IHu, IHv.
Qed.

Lemma mask_on_line (r : R) (us vs : list R) :
  Forall2 (fun u v => v = r * u) us vs ->
  outlier_mask r 0 us vs = map (fun _ => false) us.
Proof.
  unfold outlier_mask. induction 1 as [| u v us vs -> _ IH]; [reflexivity |].
  cbn [combine map fst snd]. replace (r * u + 0 - r * u) with 0 by ring.
  rewrite Rabs_R0, (Rltb_false 50 0) by lra. now rewrite IH.
Qed.

(** Exact data through the origin, seed in front. *)
Lemma fit_line_exact (r : R) (sinthetas : list R) :
  sinthetas <> [] ->
  Forall (fun s => 0 < s < 1) sinthetas ->
  polyfit (map linearize (0 :: sinthetas)) (0 :: map (fun s => r * linearize s) sinthetas)
  = Ok (r, 0)
  /\ outlier_mask r 0 (map linearize (0 :: sinthetas))
                  (0 :: map (fun s => r * linearize s) sinthetas)
     = map (fun _ => false) (0 :: sinthetas)
  /\ fit_xs_and_sinthetas (0 :: map (fun s => r * linearize s) sinthetas) (0 :: sinthetas)
     = Ok (r, 0).
Proof.
  intros Hne Hall. unfold fit_xs_and_sinthetas.
  rewrite (proj2 (all_finite_iff (0 :: sinthetas))).
  2:{ constructor; [lra |]. eapply Forall_impl; [| exact Hall]. intros s Hs. nra. }
  cbn [polyfit_array map]. rewrite linearize_0.
  set (us := map linearize sinthetas).
  set (vs := map (fun s => r * linearize s) sinthetas).
  assert (Hline : Forall2 (fun u v => v = r * u) (0 :: us) (0 :: vs)).
  { constructor; [ring |]. unfold us, vs. clear.
    induction sinthetas as [| s ss IH]; cbn [map]; constructor; auto. }
  assert (Hpos : 0 < dot us us).
  { apply dot_self_pos.
    - unfold us. intros E. apply map_eq_nil in E. contradiction.
    - unfold us. apply Forall_map. eapply Forall_impl; [| exact Hall].
      intros s Hs. now apply linearize_pos. }
  pose proof (polyfit_on_line r (0 :: us) (0 :: vs) Hline (seeded_full_rank us Hpos)) as H1.
  split; [exact H1 |]. split.
  - rewrite (mask_on_line r (0 :: us) (0 :: vs) Hline). unfold us.
    cbn [map]. now rewrite !map_map.
  - rewrite H1. cbn [bind].
    destruct (reseed_on_line r (0 :: us) (0 :: vs) Hline) as [-> ->].
    apply polyfit_on_line.
    + constructor; [ring | exact Hline].
    + apply seeded_full_rank. cbn [dot]. lra.
Qed.

(** Samples that lie on a line through the origin, x = r u with
    u = sin theta / sqrt(1 - sin theta^2), are fitted exactly: with the seed
    in front and at least one sample, all sines strictly between 0 and 1,
    the first pass gives slope r and intercept 0, the mask flags no
    sample, and the fit returns slope r and intercept 0. *)
Theorem fit_recovers_line (r : R) (sinthetas : list R) :
  sinthetas <> [] ->
  Forall (fun s => 0 < s < 1) sinthetas ->
  polyfit (map linearize (0 :: sinthetas)) (0 :: map (fun s => r * linearize s) sinthetas)
  = Ok (r, 0)
  /\ outlier_mask r 0 (map linearize (0 :: sinthetas))
                  (0 :: map (fun s => r * linearize s) sinthetas)
     = map (fun _ => false) (0 :: sinthetas)
  /\ fit_xs_and_sinthetas (0 :: map (fun s => r * linearize s) sinthetas) (0 :: sinthetas)
     = Ok (r, 0).
Proof. exact (fit_line_exact r sinthetas). Qed.

Lemma fit_recovers_line_witness :
  [3 / 5; 4 / 5] <> []
  /\ Forall (fun s => 0 < s < 1) [3 / 5; 4 / 5]
  /\ polyfit (map linearize (0 :: [3 / 5; 4 / 5]))
             (0 :: map (fun s => 3 * linearize s) [3 / 5; 4 / 5])
     = Ok (3, 0)
  /\ outlier_mask 3 0 (map linearize (0 :: [3 / 5; 4 / 5]))
                  (0 :: map (fun s => 3 * linearize s) [3 / 5; 4 / 5])
     = map (fun _ => false) (0 :: [3 / 5; 4 / 5])
  /\ fit_xs_and_sinthetas (0 :: map (fun s => 3 * linearize s) [3 / 5; 4 / 5])
                          (0 :: [3 / 5; 4 / 5])
     = Ok (3, 0).
Proof.
  assert (Hne : [3 / 5; 4 / 5] <> []) by discriminate.
  assert (Hall : Forall (fun s => 0 < s < 1) [3 / 5; 4 / 5]).
  { repeat constructor; lra. }
  split; [exact Hne |]. split; [exact Hall |].
  exact (fit_recovers_line 3 [3 / 5; 4 / 5] Hne Hall).
Defined.

(** ** The lattice model: what a sample is *)

Lemma py_index_in {A : Type} (l : list A) (j : nat) (v : A) :
  py_index l j = Ok v -> In v l.
Proof.
  unfold py_index. destruct (nth_error l j) eqn:E; [| discriminate].
  intros H. injection H as <-. now apply nth_error_In in E.
Qed.

Lemma au_loop_sample (ref voltage : R) (cluster : list (list R)) (xm s : R) :
  forall (ts : list (list R)) (j : nat),
    au_loop ref Au cluster voltage j ts = Ok (Some (xm, s)) ->
    exists c, In c cluster /\ xm = median c /\
              au_order voltage xm <= 2 /\
              s = au_order voltage xm / (2 * a Au) * lambda voltage.
Proof.
  induction ts as [| t ts IH]; intros j H; cbn [au_loop] in H; [discriminate |].
  apply bind_ok in H as (m & _ & H).
  destruct (Rltb (Rabs (ref - m)) 0.1); [| now apply IH in H].
  apply bind_ok in H as (c & Hc & H).
  fold (lambda voltage) in H. fold (au_order voltage (median c)) in H.
  destruct (Rltb 2 (au_order voltage (median c))) eqn:En; [now apply IH in H |].
  injection H as <- <-. exists c. apply py_index_in in Hc.
  apply Rltb_false_iff in En. repeat split; assumption.
Qed.

Lemma slot_loop_sample (kd : kind) (cluster : list (list R)) (voltage m xm s : R) (j : nat) :
  forall (bs : list R) (k : nat),
    slot_loop kd cluster voltage j m k bs = Ok (Some (xm, s)) ->
    exists c, In c cluster /\ xm = median c /\
              (s = 1 * lambda voltage / a kd \/ s = sqrt 2 * lambda voltage / a kd).
Proof.
  induction bs as [| b bs IH]; intros k H; cbn [slot_loop] in H; [discriminate |].
  destruct (Rltb (Rabs (b - m)) 0.1); [| now apply IH in H].
  apply bind_ok in H as (c & Hc & H). injection H as <- <-.
  exists c. apply py_index_in in Hc. repeat split; try assumption.
  unfold lambda. destruct (Nat.eqb k 0); [now left | now right].
Qed.

Lemma other_loop_sample (bs : list R) (kd : kind) (cluster : list (list R))
    (voltage xm s : R) :
  forall (ts : list (list R)) (j : nat),
    other_loop bs kd cluster voltage j ts = Ok (Some (xm, s)) ->
    exists c, In c cluster /\ xm = median c /\
              (s = 1 * lambda voltage / a kd \/ s = sqrt 2 * lambda voltage / a kd).
Proof.
  induction ts as [| t ts IH]; intros j H; cbn [other_loop] in H; [discriminate |].
  destruct (Nat.ltb 2 j); [discriminate |].
  apply bind_ok in H as (m & _ & H). apply bind_ok in H as (r & Hr & H).
  destruct r as [[xm' s'] |]; [| now apply IH in H].
  injection H as -> ->. now apply slot_loop_sample in Hr.
Qed.

(** Whatever the kind and the surface, a sample [calc_x_and_sintheta]
    returns has for x the median radius of one of the clusters it was
    given, and for sin(theta) one of the closed forms: lambda/d on '111';
    n lambda / (2a) with n = (x/lambda)//100 + 1 at most 2 for Au on '110';
    lambda/a or sqrt(2) lambda/a for Ag and Cu on '110'. *)
Theorem calc_sample_form (bt : base_type) (cluster cluster_theta : list (list R))
    (voltage xm s : R) :
  calc_x_and_sintheta bt cluster cluster_theta voltage = Ok (Some (xm, s)) ->
  exists c, In c cluster /\ xm = median c /\
    match bt_surface bt, bt_kind bt with
    | S111, k => s = lambda voltage / ((a k / sqrt 2) * sqrt 3 / 2)
    | S110, Au =>
        au_order voltage xm <= 2 /\ s = au_order voltage xm / (2 * a Au) * lambda voltage
    | S110, k => s = 1 * lambda voltage / a k \/ s = sqrt 2 * lambda voltage / a k
    end.
Proof.
  unfold calc_x_and_sintheta. destruct bt as [k sf]. cbn [bt_surface bt_kind].
  destruct sf.
  - destruct k; intros H; apply bind_ok in H as (b0 & _ & H).
    + apply bind_ok in H as (b1 & _ & H). now apply other_loop_sample in H.
    + apply bind_ok in H as (b1 & _ & H). now apply other_loop_sample in H.
    + apply au_loop_sample in H as (c & Hc & Hx & Hn & Hs). now exists c.
  - intros H. apply bind_ok in H as (c & Hc & H). injection H as <- <-.
    exists c. apply py_index_in in Hc. now repeat split.
Qed.

Lemma calc_sample_form_witness :
  calc_x_and_sintheta {| bt_kind := Au; bt_surface := S110 |}
    [[100; 106]] [[0; PI]] 150.4 = Ok (Some (103, 1 / a Au))
  /\ exists c, In c [[100; 106]] /\ 103 = median c /\
       au_order 150.4 103 <= 2 /\
       1 / a Au = au_order 150.4 103 / (2 * a Au) * lambda 150.4.
Proof.
  split; [exact calc_Au_inner_ring |].
  exact (calc_sample_form {| bt_kind := Au; bt_surface := S110 |}
           [[100; 106]] [[0; PI]] 150.4 103 (1 / a Au) calc_Au_inner_ring).
Defined.

(** ** The median *)

Lemma length_insert_sorted (v : R) (l : list R) :
  length (insert_sorted v l) = S (length l).
Proof.
  induction l as [| y l IH]; cbn [insert_sorted]; [reflexivity |].
  destruct (Rleb v y); cbn [length]; [reflexivity | now rewrite IH].
Qed.

Lemma length_sort (l : list R) : length (sort l) = length l.
Proof.
  induction l as [| y l IH]; cbn [sort]; [reflexivity |].
  now rewrite length_insert_sorted, IH.
Qed.

Lemma Forall_insert_sorted (P : R -> Prop) (v : R) (l : list R) :
  P v -> Forall P l -> Forall P (insert_sorted v l).
Proof.
  intros Hv. induction 1 as [| y l Hy Hl IH]; cbn [insert_sorted].
  - now constructor.
  - destruct (Rleb v y); repeat constructor; assumption.
Qed.

Lemma Forall_sort (P : R -> Prop) (l : list R) : Forall P l -> Forall P (sort l).
Proof.
  induction 1 as [| y l Hy Hl IH]; cbn [sort]; [constructor |].
  now apply Forall_insert_sorted.
Qed.

(** The median of a non-empty array lies between any two bounds of its
    values. *)
Lemma median_bounds (lo hi : R) (l : list R) :
  l <> [] -> Forall (fun v => lo <= v <= hi) l -> lo <= median l <= hi.
Proof.
  intros Hne Hall. unfold median. rewrite length_sort.
  apply Forall_sort in Hall.
  assert (Hlen : (0 < length l)%nat) by (destruct l; [contradiction | cbn; lia]).
  assert (Hnth : forall j, (j < length l)%nat -> lo <= nth j (sort l) 0 <= hi).
  { intros j Hj. rewrite Forall_forall in Hall. apply Hall.
    apply nth_In. now rewrite length_sort. }
  assert (Hhalf : (length l / 2 < length l)%nat) by (apply Nat.div_lt; lia).
  destruct (Nat.even (length l)).
  - pose proof (Hnth (length l / 2 - 1)%nat ltac:(lia)).
    pose proof (Hnth (length l / 2)%nat Hhalf). lra.
  - now apply Hnth.
Qed.

(** ** The lattice model: the range of a sample *)

Lemma sqrt_2_bounds : 1.41 < sqrt 2 < 1.41422.
Proof.
  split.
  - rewrite <- (sqrt_square 1.41) by lra. apply sqrt_lt_1; lra.
  - rewrite <- (sqrt_square 1.41422) by lra. apply sqrt_lt_1; lra.
Qed.

Lemma sqrt_3_bounds : 1.732 < sqrt 3 < 1.7321.
Proof.
  split.
  - rewrite <- (sqrt_square 1.732) by lra. apply sqrt_lt_1; lra.
  - rewrite <- (sqrt_square 1.7321) by lra. apply sqrt_lt_1; lra.
Qed.

Lemma lambda_bounds (voltage : R) : 31 <= voltage -> 0 < lambda voltage < 2.21.
Proof.
  intros HV. unfold lambda.
  assert (Hq : 0 < 150.4 / voltage) by (apply Rdiv_lt_0_compat; lra).
  assert (Hle : 150.4 / voltage < 2.21 * 2.21).
  { apply Rmult_lt_reg_r with voltage; [lra |].
    replace (150.4 / voltage * voltage) with 150.4 by (field; lra). nra. }
  split; [now apply sqrt_lt_R0 |].
  rewrite <- (sqrt_square 2.21) by lra. apply sqrt_lt_1; lra.
Qed.

Lemma a_bounds (k : kind) : 3.61496 <= a k <= 4.0862.
Proof. destruct k; unfold a; lra. Qed.

Lemma theoretical_d_bound (k : kind) : 2.21 < (a k / sqrt 2) * sqrt 3 / 2.
Proof.
  pose proof sqrt_2_bounds. pose proof sqrt_3_bounds. pose proof (a_bounds k).
  apply Rmult_lt_reg_r with (2 * sqrt 2); [lra |].
  replace ((a k / sqrt 2) * sqrt 3 / 2 * (2 * sqrt 2)) with (a k * sqrt 3) by (field; lra).
  nra.
Qed.

Lemma au_order_ge_1 (voltage x : R) : 0 < lambda voltage -> 0 <= x -> 1 <= au_order voltage x.
Proof.
  intros Hl Hx. unfold au_order, floor_div.
  assert (H : (0 <= Zfloor (x / lambda voltage / 100))%Z).
  { apply Zfloor_lub. cbn [IZR].
    apply Rmult_le_pos; [| lra]. apply Rmult_le_pos; [exact Hx |].
    apply Rlt_le, Rinv_0_lt_compat, Hl. }
  apply IZR_le in H. lra.
Qed.

(** At a beam voltage of 31 V or more, every sample computed from the
    clusters of [clustering] is in range: its x lies between 0 and 505
    and its sin(theta) strictly between 0 and 1, for every kind and
    surface. *)
Theorem sample_in_range (bt : base_type) (x theta : list R)
    (cluster cluster_theta : list (list R)) (voltage xm s : R) :
  clustering x theta = Ok (Some (cluster, cluster_theta)) ->
  31 <= voltage ->
  calc_x_and_sintheta bt cluster cluster_theta voltage = Ok (Some (xm, s)) ->
  0 <= xm <= 505 /\ 0 < s < 1.
Proof.
  intros Hcl HV Hcalc.
  pose proof (clustering_shape x theta cluster cluster_theta Hcl) as (_ & _ & Hsz & _).
  pose proof Hcl as Hin. unfold clustering in Hin.
  apply bind_ok in Hin as (st & Hwalk & _).
  rewrite (clustering_after_walk x theta st Hwalk) in Hcl. cbn zeta in Hcl.
  destruct (Nat.eqb _ 0); [discriminate |]. injection Hcl as Hcl _.
  assert (Hmem : Forall (fun c => Forall (fun v => 0 <= v <= 505) c) cluster).
  { rewrite <- Hcl. apply Forall_select.
    eapply Forall_impl; [| exact (proj1 (walk_members x theta st Hwalk))].
    intros c Hc. eapply Forall_impl; [| exact Hc]. now intros v [_ Hv]. }
  pose proof (lambda_bounds voltage HV) as Hl.
  pose proof sqrt_2_bounds as H2. pose proof (a_bounds (bt_kind bt)) as Ha.
  (* the sample, by kind and surface *)
  clear Hcl Hwalk st.
  assert (Hform := Hcalc).
  unfold calc_x_and_sintheta in Hform. destruct bt as [k sf]. cbn [bt_surface bt_kind] in *.
  assert (Hmed : forall c, In c cluster -> 0 <= median c <= 505).
  { intros c Hc. rewrite Forall_forall in Hmem, Hsz.
    apply median_bounds; [| now apply Hmem].
    specialize (Hsz c Hc). intros ->. cbn in Hsz. lia. }
  assert (Hother : forall xm' s', (exists c, In c cluster /\ xm' = median c /\
                       (s' = 1 * lambda voltage / a k \/ s' = sqrt 2 * lambda voltage / a k)) ->
                     0 <= xm' <= 505 /\ 0 < s' < 1).
  { intros xm' s' (c & Hc & -> & Hs). split; [now apply Hmed |].
    destruct Hs as [-> | ->]; split.
    - apply Rdiv_lt_0_compat; lra.
    - apply Rmult_lt_reg_r with (a k); [lra |].
      replace (1 * lambda voltage / a k * a k) with (lambda voltage) by (field; lra). lra.
    - apply Rdiv_lt_0_compat; [nra | lra].
    - apply Rmult_lt_reg_r with (a k); [lra |].
      replace (sqrt 2 * lambda voltage / a k * a k) with (sqrt 2 * lambda voltage)
        by (field; lra).
      nra. }
  destruct sf.
  - destruct k; apply bind_ok in Hform as (b0 & _ & Hform).
    + apply bind_ok in Hform as (b1 & _ & Hform). apply Hother.
      now apply other_loop_sample in Hform.
    + apply bind_ok in Hform as (b1 & _ & Hform). apply Hother.
      now apply other_loop_sample in Hform.
    + apply au_loop_sample in Hform as (c & Hc & -> & Hn & ->).
      specialize (Hmed c Hc). split; [exact Hmed |].
      pose proof (au_order_ge_1 voltage (median c) (proj1 Hl) (proj1 Hmed)) as Hn1.
      set (n := au_order voltage (median c)) in *. unfold a. split.
      * apply Rmult_lt_0_compat; [| lra]. apply Rdiv_lt_0_compat; lra.
      * apply Rmult_lt_reg_r with (2 * 4.07864); [lra |].
        replace (n / (2 * 4.07864) * lambda voltage * (2 * 4.07864))
          with (n * lambda voltage) by (field; lra).
        nra.
  - apply bind_ok in Hform as (c & Hc & Hform). injection Hform as <- <-.
    apply py_index_in in Hc. split; [now apply Hmed |].
    pose proof (theoretical_d_bound k) as Hd. fold (lambda voltage).
    set (d := (a k / sqrt 2) * sqrt 3 / 2) in *. split.
    + apply Rdiv_lt_0_compat; lra.
    + apply Rmult_lt_reg_r with d; [lra |].
      replace (lambda voltage / d * d) with (lambda voltage) by (field; lra).
      lra.
Qed.

Lemma sample_in_range_witness :
  clustering [100; 106] [0; PI] = Ok (Some ([[100; 106]], [[0; PI]]))
  /\ 31 <= 150.4
  /\ calc_x_and_sintheta {| bt_kind := Au; bt_surface := S110 |}
       [[100; 106]] [[0; PI]] 150.4 = Ok (Some (103, 1 / a Au))
  /\ 0 <= 103 <= 505 /\ 0 < 1 / a Au < 1.
Proof.
  assert (HV : 31 <= 150.4) by lra.
  split; [exact clustering_inner_ring |]. split; [exact HV |].
  split; [exact calc_Au_inner_ring |].
  exact (sample_in_range _ _ _ _ _ _ _ _ clustering_inner_ring HV calc_Au_inner_ring).
Defined.

(** On surface '111' sin(theta) decreases as the beam voltage grows. *)
Theorem sintheta_111_decreasing (k : kind) (c : list R) (cs cluster_theta : list (list R))
    (v1 v2 : R) :
  0 < v1 < v2 ->
  exists s1 s2,
    calc_x_and_sintheta {| bt_kind := k; bt_surface := S111 |} (c :: cs) cluster_theta v1
    = Ok (Some (median c, s1))
    /\ calc_x_and_sintheta {| bt_kind := k; bt_surface := S111 |} (c :: cs) cluster_theta v2
       = Ok (Some (median c, s2))
    /\ s2 < s1.
Proof.
  intros [H1 H2].
  exists (sqrt (150.4 / v1) / ((a k / sqrt 2) * sqrt 3 / 2)),
         (sqrt (150.4 / v2) / ((a k / sqrt 2) * sqrt 3 / 2)).
  split; [reflexivity |]. split; [reflexivity |].
  pose proof (theoretical_d_bound k) as Hd.
  apply Rmult_lt_compat_r; [apply Rinv_0_lt_compat; lra |].
  apply sqrt_lt_1.
  - apply Rlt_le, Rdiv_lt_0_compat; lra.
  - apply Rlt_le, Rdiv_lt_0_compat; lra.
  - apply Rmult_lt_compat_l; [lra |]. apply Rinv_lt_contravar; [nra | lra].
Qed.

Lemma sintheta_111_decreasing_witness :
  0 < 75 < 150
  /\ exists s1 s2,
       calc_x_and_sintheta {| bt_kind := Cu; bt_surface := S111 |} [[100; 106]] [[0; PI]] 75
       = Ok (Some (median [100; 106], s1))
       /\ calc_x_and_sintheta {| bt_kind := Cu; bt_surface := S111 |} [[100; 106]] [[0; PI]] 150
          = Ok (Some (median [100; 106], s2))
       /\ s2 < s1.
Proof.
  assert (H : 0 < 75 < 150) by lra.
  split; [exact H |].
  exact (sintheta_111_decreasing Cu [100; 106] [] [[0; PI]] 75 150 H).
Defined.

(** ** The pipeline: skipped images, the samples, what it raises *)

Lemma image_step_skipped (bt : base_type) (acc : list R * list R) (img : image) :
  polar img = None
  \/ (exists x theta, polar img = Some (x, theta) /\ clustering x theta = Ok None) ->
  image_step bt acc img = Ok acc.
Proof.
  destruct acc as [xs ss]. unfold image_step.
  intros [-> | (x & theta & -> & ->)]; reflexivity.
Qed.

(** An image in which [detect] found nothing, or in which [clustering]
    found no cluster, changes nothing: the run returns what it returns
    without that image. *)
Theorem skipped_image_no_effect (bt : base_type) (pre post : list image) (img : image) :
  polar img = None
  \/ (exists x theta, polar img = Some (x, theta) /\ clustering x theta = Ok None) ->
  calc_rprime bt (pre ++ img :: post) = calc_rprime bt (pre ++ post).
Proof.
  intros Hskip. unfold calc_rprime. rewrite !image_loop_app.
  destruct (image_loop bt ([0], [0]) pre) as [acc | e |]; cbn [bind]; try reflexivity.
  cbn [image_loop]. now rewrite (image_step_skipped bt acc img Hskip).
Qed.

Lemma skipped_image_no_effect_witness :
  (polar blank_image = None
   \/ (exists x theta, polar blank_image = Some (x, theta) /\ clustering x theta = Ok None))
  /\ calc_rprime {| bt_kind := Ag; bt_surface := S110 |} ([ring_image] ++ blank_image :: [])
     = calc_rprime {| bt_kind := Ag; bt_surface := S110 |} ([ring_image] ++ []).
Proof.
  assert (H : polar blank_image = None
              \/ (exists x theta, polar blank_image = Some (x, theta)
                                  /\ clustering x theta = Ok None))
    by (left; reflexivity).
  split; [exact H |].
  exact (skipped_image_no_effect _ [ring_image] [] blank_image H).
Defined.

Lemma usable_cons (bt : base_type) (img : image) (imgs : list image) :
  length (filter (usable bt) (img :: imgs))
  = ((if usable bt img then 1 else 0) + length (filter (usable bt) imgs))%nat.
Proof. cbn [filter]. now destruct (usable bt img). Qed.

(** A run that gets through its images has added one sample per usable
    image, at the end, to both sequences. *)
Lemma image_loop_samples (bt : base_type) (imgs : list image) :
  forall xs0 ss0 xs ss,
    image_loop bt (xs0, ss0) imgs = Ok (xs, ss) ->
    exists xs' ss',
      xs = xs0 ++ xs' /\ ss = ss0 ++ ss' /\
      length xs' = length ss' /\
      length xs' = length (filter (usable bt) imgs).
Proof.
  induction imgs as [| img imgs IH]; intros xs0 ss0 xs ss H; cbn [image_loop] in H.
  - injection H as <- <-. exists [], []. now rewrite !app_nil_r.
  - apply bind_ok in H as ([xs1 ss1] & Hstep & H).
    rewrite image_step_sample in Hstep.
    apply bind_ok in Hstep as (r & Hr & Hacc). injection Hacc as Hacc.
    apply IH in H as (xs' & ss' & -> & -> & Hlen & Hcount).
    rewrite usable_cons. unfold usable at 1. rewrite Hr.
    destruct r as [[x s] |]; injection Hacc as <- <-.
    + exists (x :: xs'), (s :: ss'). rewrite <- !app_assoc. cbn [app length].
      repeat split; lia.
    + exists xs', ss'. cbn [Nat.add]. now repeat split.
Qed.

(** In a run that gets through its images, the samples handed to the
    fit are the seed followed by one (x, sin theta) per usable image:
    [xs] and [sinthetas] both start with 0 and have the same length, one
    more than the number of usable images. *)
Theorem samples_one_per_usable_image (bt : base_type) (imgs : list image) (xs sinthetas : list R) :
  image_loop bt ([0], [0]) imgs = Ok (xs, sinthetas) ->
  exists xs' sinthetas',
    xs = 0 :: xs' /\ sinthetas = 0 :: sinthetas' /\
    length xs' = length sinthetas' /\
    length xs' = length (filter (usable bt) imgs).
Proof. intros H. now apply image_loop_samples in H. Qed.

Lemma usable_blank_ring :
  filter (usable {| bt_kind := Ag; bt_surface := S110 |}) [blank_image; ring_image]
  = [ring_image].
Proof.
  cbn [filter]. unfold usable.
  change (image_sample _ blank_image) with (@Ok (option (R * R)) None).
  now rewrite ring_image_sample_Ag.
Qed.

Lemma samples_one_per_usable_image_witness :
  image_loop {| bt_kind := Ag; bt_surface := S110 |} ([0], [0]) [blank_image; ring_image]
  = Ok ([0; median [300; 306]], [0; 1 * sqrt (150.4 / 150.4) / a Ag])
  /\ length (filter (usable {| bt_kind := Ag; bt_surface := S110 |})
                    [blank_image; ring_image]) = 1%nat
  /\ exists xs' sinthetas',
       [0; median [300; 306]] = 0 :: xs'
       /\ [0; 1 * sqrt (150.4 / 150.4) / a Ag] = 0 :: sinthetas'
       /\ length xs' = length sinthetas'
       /\ length xs' = length (filter (usable {| bt_kind := Ag; bt_surface := S110 |})
                                      [blank_image; ring_image]).
Proof.
  split; [exact image_loop_blank_ring |].
  split; [now rewrite usable_blank_ring |].
  exact (samples_one_per_usable_image _ [blank_image; ring_image] _ _ image_loop_blank_ring).
Defined.

(** On what [clustering] returns, the lattice model raises nothing, and
    only the Au branch of surface '110' can return [None]. *)
Lemma calc_on_clusters (bt : base_type) (cluster cluster_theta : list (list R)) (voltage : R) :
  cluster_theta <> [] -> well_formed cluster cluster_theta ->
  exists r, calc_x_and_sintheta bt cluster cluster_theta voltage = Ok r
            /\ (r = None -> bt_kind bt = Au /\ bt_surface bt = S110).
Proof.
  intros Hne Hwf. destruct bt as [k sf].
  assert (Hc : exists c cs, cluster = c :: cs).
  { destruct Hwf as [Hlen _]. destruct cluster as [| c cs]; [| eauto].
    destruct cluster_theta; [contradiction | discriminate]. }
  destruct Hc as (c & cs & ->).
  destruct sf.
  - destruct k.
    + rewrite (calc_110_other_sample Cu voltage c cs cluster_theta) by (discriminate || assumption).
      eexists; split; [reflexivity | discriminate].
    + rewrite (calc_110_other_sample Ag voltage c cs cluster_theta) by (discriminate || assumption).
      eexists; split; [reflexivity | discriminate].
    + destruct Hwf as [Hlen Hall].
      destruct cluster_theta as [| t0 ts]; [contradiction |].
      assert (Ht0 : t0 <> []) by (now inversion Hall).
      destruct (py_min_nonempty t0 Ht0) as [ref Href].
      destruct (au_loop_first_accepted ref voltage (c :: cs) (t0 :: ts) 0 Hlen Hall)
        as [r [Hr _]].
      exists r. split; [| now split].
      unfold calc_x_and_sintheta; cbn [bt_surface bt_kind].
      rewrite baseline_fresh. cbn [py_index nth_error bind]. rewrite Href. exact Hr.
  - eexists. split; [reflexivity | discriminate].
Qed.

Lemma image_step_raises (bt : base_type) (acc : list R * list R) (img : image) (e : exn) :
  shaped img -> image_step bt acc img = Raise e ->
  e = TypeError /\ bt_kind bt = Au /\ bt_surface bt = S110.
Proof.
  destruct acc as [xs ss]. unfold shaped, image_step.
  destruct (polar img) as [[x theta] |]; [| discriminate].
  intros Hlen. destruct (clustering_ok x theta Hlen) as (r & Hr). rewrite Hr. cbn [bind].
  destruct r as [[cluster cluster_theta] |]; [| discriminate].
  destruct (clustering_well_formed x theta cluster cluster_theta Hr) as [Hne Hwf].
  destruct (calc_on_clusters bt cluster cluster_theta (voltage_of img) Hne Hwf)
    as (s & -> & Hnone).
  cbn [bind]. destruct s as [[x' s'] |]; [discriminate |].
  intros H. injection H as <-. split; [reflexivity | now apply Hnone].
Qed.

Lemma image_loop_raises (bt : base_type) (imgs : list image) (e : exn) :
  Forall shaped imgs ->
  forall acc, image_loop bt acc imgs = Raise e ->
              e = TypeError /\ bt_kind bt = Au /\ bt_surface bt = S110.
Proof.
  induction 1 as [| img imgs Himg _ IH]; intros acc H; cbn [image_loop] in H; [discriminate |].
  destruct (image_step bt acc img) as [acc1 | e1 |] eqn:E; cbn [bind] in H.
  - now apply IH in H.
  - injection H as <-. now apply image_step_raises in E.
  - discriminate.
Qed.

Lemma dot_zero_all (l : list R) : dot l l = 0 -> Forall (fun u => u = 0) l.
Proof.
  induction l as [| u l IH]; cbn [dot]; [constructor |].
  intros H. pose proof (dot_self_nonneg l).
  constructor; [nra | apply IH; nra].
Qed.

(** With the seed among the abscissas, [polyfit] is never left open:
    abscissas that are all equal are all zero. *)
Lemma polyfit_seeded_determined (l y : list R) : polyfit (0 :: l) y <> Unmodelled.
Proof.
  intros H. unfold polyfit in H.
  destruct (Nat.eqb (length (0 :: l)) 0); [discriminate H |].
  destruct (negb (Nat.eqb (length (0 :: l)) (length y))); [discriminate H |].
  destruct (forallb (fun u => Reqb u 0) (0 :: l)) eqn:Ez; [discriminate H |].
  destruct (Reqb (INR (length (0 :: l)) * dot (0 :: l) (0 :: l)
                  - sum (0 :: l) * sum (0 :: l)) 0) eqn:Ed;
    cbn zeta in H; [| discriminate H].
  apply Reqb_iff in Ed.
  change (length (0 :: l)) with (S (length l)) in Ed. rewrite S_INR in Ed. cbn [dot sum] in Ed.
  pose proof (cauchy_sums l). pose proof (dot_self_nonneg l).
  assert (Hd : dot l l = 0) by nra.
  apply dot_zero_all in Hd.
  assert (Hall : forallb (fun u => Reqb u 0) (0 :: l) = true).
  { apply all_zero_iff. now constructor. }
  congruence.
Qed.

Lemma fit_seeded_determined (xs sinthetas : list R) :
  fit_xs_and_sinthetas xs (0 :: sinthetas) <> Unmodelled.
Proof.
  unfold fit_xs_and_sinthetas. cbn [map]. rewrite linearize_0.
  destruct (polyfit_array (forallb finite_u (0 :: sinthetas))
              (0 :: map linearize sinthetas) xs) as [[r0 i0] | e |] eqn:E; cbn [bind].
  - unfold reseed. apply polyfit_seeded_determined.
  - discriminate.
  - exfalso. unfold polyfit_array in E.
    destruct (forallb finite_u (0 :: sinthetas)).
    + now apply polyfit_seeded_determined in E.
    + destruct (Nat.eqb (length (0 :: map linearize sinthetas)) 0); [discriminate E |].
      destruct (negb (Nat.eqb (length (0 :: map linearize sinthetas)) (length xs)));
        discriminate E.
Qed.

Lemma image_step_determined (bt : base_type) (acc : list R * list R) (img : image) :
  shaped img -> image_step bt acc img <> Unmodelled.
Proof.
  destruct acc as [xs ss]. unfold shaped, image_step.
  destruct (polar img) as [[x theta] |]; [| discriminate].
  intros Hlen. destruct (clustering_ok x theta Hlen) as (r & Hr). rewrite Hr. cbn [bind].
  destruct r as [[cluster cluster_theta] |]; [| discriminate].
  destruct (clustering_well_formed x theta cluster cluster_theta Hr) as [Hne Hwf].
  destruct (calc_on_clusters bt cluster cluster_theta (voltage_of img) Hne Hwf)
    as (s & -> & _).
  cbn [bind]. destruct s as [[x' s'] |]; discriminate.
Qed.

Lemma image_loop_determined (bt : base_type) (imgs : list image) :
  Forall shaped imgs -> forall acc, image_loop bt acc imgs <> Unmodelled.
Proof.
  induction 1 as [| img imgs Himg _ IH]; intros acc; cbn [image_loop]; [discriminate |].
  destruct (image_step bt acc img) as [acc1 | e |] eqn:E; cbn [bind].
  - apply IH.
  - discriminate.
  - now apply image_step_determined in E.
Qed.

(** On images with as many angles as radii and positive beam voltages
    (where the divisions and square roots of the lattice model are those
    of the code), a run never raises [IndexError] or [ValueError].  It
    raises [TypeError] only when unpacking a missing sample, for Au on
    surface '110'; anything else it raises is the [LinAlgError] of
    [np.polyfit].  The fit of a run is never the case left open in
    [polyfit]. *)
Theorem calc_rprime_exceptions (bt : base_type) (imgs : list image) :
  Forall shaped imgs ->
  Forall (fun img => 0 < voltage_of img) imgs ->
  calc_rprime bt imgs <> Unmodelled
  /\ (forall e, calc_rprime bt imgs = Raise e ->
        (e = TypeError /\ bt_kind bt = Au /\ bt_surface bt = S110) \/ e = LinAlgError).
Proof.
  intros Hshaped _. unfold calc_rprime.
  destruct (image_loop bt ([0], [0]) imgs) as [[xs ss] | e1 |] eqn:E; cbn [bind].
  - apply image_loop_samples in E as (xs' & ss' & -> & -> & Hlen & _). cbn [app].
    destruct (fit_xs_and_sinthetas (0 :: xs') (0 :: ss')) as [[r i] | e2 |] eqn:F;
      cbn [bind].
    + split; [discriminate | intros e H; discriminate H].
    + split; [discriminate |]. intros e H. injection H as <-. right.
      destruct (fit_raise_kinds _ _ _ F) as [-> | ->]; [| reflexivity].
      apply fit_raises_type in F as [F | F]; [discriminate F |].
      exfalso. apply F. cbn [length]. now rewrite Hlen.
    + now apply fit_seeded_determined in F.
  - split; [discriminate |]. intros e H. injection H as <-. left.
    now apply (image_loop_raises bt imgs e1 Hshaped) in E.
  - now apply (image_loop_determined bt imgs Hshaped) in E.
Qed.

Lemma calc_rprime_exceptions_witness :
  Forall shaped [ring_image; inner_ring_image]
  /\ Forall (fun img => 0 < voltage_of img) [ring_image; inner_ring_image]
  /\ calc_rprime {| bt_kind := Au; bt_surface := S110 |} [ring_image; inner_ring_image]
     = Raise TypeError
  /\ ((TypeError = TypeError /\ Au = Au /\ S110 = S110) \/ TypeError = LinAlgError).
Proof.
  assert (Hs : Forall shaped [ring_image; inner_ring_image]).
  { repeat constructor. }
  assert (Hv : Forall (fun img => 0 < voltage_of img) [ring_image; inner_ring_image]).
  { repeat constructor; cbn [voltage_of ring_image inner_ring_image]; lra. }
  assert (Hr : calc_rprime {| bt_kind := Au; bt_surface := S110 |}
                 [ring_image; inner_ring_image] = Raise TypeError).
  { unfold calc_rprime.
    rewrite (image_loop_raise _ _ ring_image [inner_ring_image] TypeError); [reflexivity |].
    unfold image_step, ring_image. cbn [polar voltage_of].
    rewrite clustering_ring_two_bins. cbn [bind].
    now rewrite calc_Au_ring_none. }
  split; [exact Hs |]. split; [exact Hv |]. split; [exact Hr |].
  exact (proj2 (calc_rprime_exceptions _ _ Hs Hv) _ Hr).
Defined.



Lemma image_loop_on_line (bt : base_type) (r : R) (imgs : list image) :
  Forall (fun img => image_sample bt img = Ok None
                     \/ exists s, 0 < s < 1
                                  /\ image_sample bt img = Ok (Some (r * linearize s, s)))
         imgs ->
  forall xs0 ss0,
  exists ss',
    image_loop bt (xs0, ss0) imgs
    = Ok (xs0 ++ map (fun s => r * linearize s) ss', ss0 ++ ss')
    /\ Forall (fun s => 0 < s < 1) ss'
    /\ (Exists (fun img => usable bt img = true) imgs -> ss' <> []).
Proof.
  induction 1 as [| img imgs Himg _ IH]; intros xs0 ss0.
  - exists []. cbn [image_loop map]. rewrite !app_nil_r.
    repeat split; [constructor | intros H; inversion H].
  - cbn [image_loop]. rewrite image_step_sample.
    destruct Himg as [Hnone | (s & Hs & Hsome)].
    + rewrite Hnone. cbn [bind].
      destruct (IH xs0 ss0) as (ss' & -> & Hall & Hne). exists ss'.
      repeat split; [exact Hall |].
      intros Hex. apply Hne. inversion Hex as [? ? Hu | ? ? Hu]; subst; [| exact Hu].
      unfold usable in Hu. rewrite Hnone in Hu. discriminate.
    + rewrite Hsome. cbn [bind].
      destruct (IH (xs0 ++ [r * linearize s]) (ss0 ++ [s])) as (ss' & -> & Hall & _).
      exists (s :: ss'). cbn [map]. rewrite <- !app_assoc. cbn [app].
      repeat split; [now constructor | discriminate].
Qed.

(** End to end on exact data: when every image is skipped or yields a
    sample on the line x = r u (u = sin theta / sqrt(1 - sin theta^2),
    0 < sin theta < 1) and at least one image is usable, the run returns
    exactly r. *)
Theorem calc_rprime_recovers_slope (bt : base_type) (r : R) (imgs : list image) :
  Forall (fun img => image_sample bt img = Ok None
                     \/ exists s, 0 < s < 1
                                  /\ image_sample bt img = Ok (Some (r * linearize s, s)))
         imgs ->
  Exists (fun img => usable bt img = true) imgs ->
  calc_rprime bt imgs = Ok r.
Proof.
  intros Hall Hex. unfold calc_rprime.
  destruct (image_loop_on_line bt r imgs Hall [0] [0]) as (ss' & -> & Hs & Hne).
  cbn [bind app]. now rewrite (proj2 (proj2 (fit_line_exact r ss' (Hne Hex) Hs))).
Qed.

Lemma calc_rprime_recovers_slope_witness :
  calc_rprime {| bt_kind := Au; bt_surface := S110 |} [blank_image; inner_ring_image]
  = Ok (103 / linearize (1 / a Au)).
Proof.
  assert (Hs : 0 < 1 / a Au < 1) by (unfold a; lra).
  assert (Hu : 0 < linearize (1 / a Au)) by (now apply linearize_pos).
  assert (Hinner : image_sample {| bt_kind := Au; bt_surface := S110 |} inner_ring_image
                   = Ok (Some (103 / linearize (1 / a Au) * linearize (1 / a Au), 1 / a Au))).
  { replace (103 / linearize (1 / a Au) * linearize (1 / a Au)) with 103 by (field; lra).
    unfold image_sample, inner_ring_image. cbn [polar voltage_of].
    rewrite clustering_inner_ring. cbn [bind]. now rewrite calc_Au_inner_ring. }
  apply (calc_rprime_recovers_slope _ (103 / linearize (1 / a Au))).
  - constructor; [left; reflexivity |].
    constructor; [| constructor]. right. exists (1 / a Au). split; [exact Hs | exact Hinner].
  - right. left. unfold usable. now rewrite Hinner.
Defined.

(** ** The Au branch: the first cluster, and orders above 2 *)

(** Au, surface '110': the reference angle is the first cluster's own
    minimum angle, so the first cluster always passes the angle test;
    when its order is at most 2 the sample is the first cluster's,
    whatever the other clusters are. *)
Theorem calc_110_au_first_cluster (voltage : R) (c : list R) (cs cluster_theta : list (list R)) :
  cluster_theta <> [] ->
  Forall (fun t => t <> []) cluster_theta ->
  au_order voltage (median c) <= 2 ->
  calc_x_and_sintheta {| bt_kind := Au; bt_surface := S110 |} (c :: cs) cluster_theta voltage
  = Ok (Some (median c, au_order voltage (median c) / (2 * a Au) * lambda voltage)).
Proof.
  intros Hne Hall Hn.
  destruct cluster_theta as [| t0 ts]; [contradiction |].
  assert (Ht0 : t0 <> []) by (now inversion Hall).
  destruct (py_min_nonempty t0 Ht0) as [ref Href].
  unfold calc_x_and_sintheta; cbn [bt_surface bt_kind].
  rewrite baseline_fresh. cbn [py_index nth_error bind]. rewrite Href.
  cbn [bind au_loop]. rewrite Href. cbn [bind]. rewrite error_zero.
  cbn [py_index nth_error bind].
  fold (lambda voltage). fold (au_order voltage (median c)).
  now rewrite (Rltb_false 2 (au_order voltage (median c)) Hn).
Qed.

Lemma au_order_inner_ring : au_order 150.4 (median [100; 106]) = 2.
Proof.
  unfold au_order, lambda, floor_div.
  rewrite lambda_unit, (median_pair 100 106) by lra.
  rewrite (Zfloor_eq 1) by lra. lra.
Qed.

Lemma au_order_ring : au_order 150.4 (median [300; 306]) = 4.
Proof.
  unfold au_order, lambda, floor_div.
  rewrite lambda_unit, (median_pair 300 306) by lra.
  rewrite (Zfloor_eq 3) by lra. lra.
Qed.

Lemma calc_110_au_first_cluster_witness :
  [[0; PI]] <> []
  /\ Forall (fun t : list R => t <> []) [[0; PI]]
  /\ au_order 150.4 (median [100; 106]) <= 2
  /\ calc_x_and_sintheta {| bt_kind := Au; bt_surface := S110 |} [[100; 106]] [[0; PI]] 150.4
     = Ok (Some (median [100; 106],
                 au_order 150.4 (median [100; 106]) / (2 * a Au) * lambda 150.4)).
Proof.
  assert (Hne : [[0; PI]] <> []) by discriminate.
  assert (Hn : au_order 150.4 (median [100; 106]) <= 2)
    by (rewrite au_order_inner_ring; lra).
  split; [exact Hne |]. split; [exact nonempty_pair_list |]. split; [exact Hn |].
  exact (calc_110_au_first_cluster 150.4 [100; 106] [] [[0; PI]] Hne nonempty_pair_list Hn).
Defined.

Lemma au_loop_all_high (ref voltage : R) (cluster : list (list R)) :
  Forall (fun c => 2 < au_order voltage (median c)) cluster ->
  forall (ts : list (list R)) (j : nat),
    length cluster = (j + length ts)%nat ->
    Forall (fun t => t <> []) ts ->
    au_loop ref Au cluster voltage j ts = Ok None.
Proof.
  intros Hhigh ts j Hlen Hne.
  destruct (au_loop_first_accepted ref voltage cluster ts j Hlen Hne) as (r & -> & Hspec).
  destruct r as [[x s] |]; [| reflexivity].
  destruct Hspec as (i & c & t & Hc & _ & (m & _ & _ & Hn) & _).
  apply nth_error_In in Hc. rewrite Forall_forall in Hhigh.
  specialize (Hhigh c Hc). lra.
Qed.

(** Au, surface '110': an image whose clusters all have an order above
    2 ends the run.  [calc_x_and_sintheta] returns [None] for it and the
    unpacking in [calc_rprime] raises [TypeError], whatever images come
    after. *)
Theorem au_110_high_orders_raise (img : image) (rest : list image) (x theta : list R)
    (cluster cluster_theta : list (list R)) :
  polar img = Some (x, theta) ->
  clustering x theta = Ok (Some (cluster, cluster_theta)) ->
  Forall (fun c => 2 < au_order (voltage_of img) (median c)) cluster ->
  calc_rprime {| bt_kind := Au; bt_surface := S110 |} (img :: rest) = Raise TypeError.
Proof.
  intros Hpolar Hcl Hhigh.
  destruct (clustering_well_formed x theta cluster cluster_theta Hcl) as [Hne [Hlen Hall]].
  unfold calc_rprime.
  rewrite (image_loop_raise _ _ img rest TypeError); [reflexivity |].
  unfold image_step. rewrite Hpolar, Hcl. cbn [bind].
  assert (Hnone : calc_x_and_sintheta {| bt_kind := Au; bt_surface := S110 |}
                    cluster cluster_theta (voltage_of img) = Ok None).
  { destruct cluster_theta as [| t0 ts]; [contradiction |].
    assert (Ht0 : t0 <> []) by (now inversion Hall).
    destruct (py_min_nonempty t0 Ht0) as [ref Href].
    unfold calc_x_and_sintheta; cbn [bt_surface bt_kind].
    rewrite baseline_fresh. cbn [py_index nth_error bind]. rewrite Href. cbn [bind].
    now apply au_loop_all_high. }
  now rewrite Hnone.
Qed.

Lemma au_110_high_orders_raise_witness :
  polar ring_image = Some ([300; 306], [0; PI])
  /\ clustering [300; 306] [0; PI] = Ok (Some ([[300; 306]], [[0; PI]]))
  /\ Forall (fun c => 2 < au_order (voltage_of ring_image) (median c)) [[300; 306]]
  /\ calc_rprime {| bt_kind := Au; bt_surface := S110 |} (ring_image :: [inner_ring_image])
     = Raise TypeError.
Proof.
  assert (Hp : polar ring_image = Some ([300; 306], [0; PI])) by reflexivity.
  assert (Hh : Forall (fun c => 2 < au_order (voltage_of ring_image) (median c)) [[300; 306]]).
  { constructor; [| constructor]. cbn [ring_image voltage_of]. rewrite au_order_ring. lra. }
  split; [exact Hp |]. split; [exact clustering_ring_two_bins |]. split; [exact Hh |].
  exact (au_110_high_orders_raise ring_image [inner_ring_image] _ _ _ _
           Hp clustering_ring_two_bins Hh).
Defined.

(** ** Clustering: a ring over two neighbouring bins *)

Lemma freq_nonzero (x : list R) (j : nat) (v : R) :
  In v x -> in_bin j v = true -> freq x j <> 0%nat.
Proof.
  unfold freq. induction x as [| y x IH]; [contradiction |].
  intros [-> | Hin] Hv; cbn [filter].
  - rewrite Hv. discriminate.
  - destruct (in_bin j y); [discriminate | now apply IH].
Qed.

Lemma select_all {A : Type} (f : R -> bool) (x : list R) :
  Forall (fun v => f v = true) x ->
  forall l : list A, length l = length x -> select (map f x) l = l.
Proof.
  induction 1 as [| v x Hv _ IH]; intros [| y l] Hlen; try discriminate; [reflexivity |].
  cbn [map select]. rewrite Hv, IH; [reflexivity |]. cbn in Hlen. lia.
Qed.

Lemma two_members (x : list R) (v w : R) :
  In v x -> In w x -> v <> w -> (1 < length x)%nat.
Proof.
  destruct x as [| y [| z x]]; cbn [In length]; try lia.
  intros [<- | []] [<- | []] H. now contradiction H.
Qed.

(** The second loop on a ring whose radii occupy exactly two
    neighbouring bins: one cluster, of all the radii, with all the angles. *)
Lemma walk_two_bins (x theta : list R) (j : nat) :
  (S j < 99)%nat ->
  Forall (fun v => bins j <= v < bins (S (S j))) x ->
  Exists (fun v => v < bins (S j)) x ->
  Exists (fun v => bins (S j) <= v) x ->
  length x = length theta ->
  exists st,
    walk_loop x theta (bin_freqs_of x) walk_init (seq 0 (length (bin_freqs_of x))) = Ok st
    /\ w_cluster st = [x] /\ w_cluster_theta st = [theta].
Proof.
  intros Hj Hall Hlow Hhigh Hlen.
  apply Exists_exists in Hlow as (v1 & Hv1 & Hlow).
  apply Exists_exists in Hhigh as (v2 & Hv2 & Hhigh).
  pose proof Hall as Hall'. rewrite Forall_forall in Hall'.
  pose proof (bins_le j (S j) ltac:(lia)) as Hb01.
  pose proof (bins_le (S j) (S (S j)) ltac:(lia)) as Hb12.
  assert (Hb0 : 0 <= bins j) by (unfold bins; apply IZR_le; lia).
  assert (Hstep : bins (S (S j)) = bins (S j) + 5).
  { unfold bins. rewrite <- plus_IZR. f_equal. lia. }
  (* the two occupied bins *)
  assert (Hf0 : freq x j <> 0%nat).
  { apply (freq_nonzero x j v1 Hv1). unfold in_bin.
    replace (Nat.eqb j 99) with false by (symmetry; apply Nat.eqb_neq; lia).
    rewrite Rleb_true by (apply Hall'; exact Hv1). now rewrite Rltb_true. }
  assert (Hf1 : freq x (S j) <> 0%nat).
  { apply (freq_nonzero x (S j) v2 Hv2). unfold in_bin.
    replace (Nat.eqb (S j) 99) with false by (symmetry; apply Nat.eqb_neq; lia).
    rewrite Rleb_true by exact Hhigh. rewrite Rltb_true; [reflexivity |].
    apply Hall'; exact Hv2. }
  assert (Hbf : bin_freqs_of x = [(bins j, freq x j); (bins (S j), freq x (S j))]).
  { unfold bin_freqs_of.
    replace (seq 0 100) with (seq 0 j ++ seq j 2 ++ seq (S (S j)) (98 - j)).
    - rewrite !flat_map_app.
      rewrite (no_bins x 0 j); [| lia |].
      + rewrite (no_bins x (S (S j)) (98 - j)); [| lia |].
        * cbn [seq flat_map app].
          apply Nat.eqb_neq in Hf0, Hf1. rewrite Hf0, Hf1. reflexivity.
        * eapply Forall_impl; [| exact Hall]. cbn beta. intros v Hv. left. lra.
      + eapply Forall_impl; [| exact Hall]. cbn beta. intros v Hv.
        right; left. cbn [Nat.add]. split; [lra | lia].
    - replace 100%nat with (j + (2 + (98 - j)))%nat at 1 by lia.
      rewrite !seq_app. cbn [Nat.add]. repeat f_equal; lia. }
  rewrite Hbf. cbn [length seq walk_loop].
  (* first bin: nothing is closed; the start is 0 or the bin *)
  assert (H0 : exists st0,
            walk_step x theta [(bins j, freq x j); (bins (S j), freq x (S j))] walk_init 0
            = Ok st0
            /\ w_cluster st0 = [] /\ w_cluster_theta st0 = [] /\ 0 <= w_start st0 <= bins j).
  { unfold walk_step. cbn [py_index nth_error bind fst length Nat.sub Nat.eqb negb].
    rewrite orb_false_r.
    destruct (Rltb (w_prev_bin walk_init + delta_bin) (bins j)); cbn [bind];
      eexists; (split; [reflexivity |]); cbn [w_cluster w_cluster_theta w_start walk_init];
      repeat split; lra. }
  destruct H0 as (st0 & -> & Hc0 & Ht0 & Hs0). cbn [bind].
  (* second and last bin: everything from the start on is selected *)
  assert (Hmask : Forall (fun v => Rleb (w_start st0) v && Rleb v (bins (S j) + delta_bin) = true) x).
  { eapply Forall_impl; [| exact Hall]. cbn beta. intros v Hv. unfold delta_bin.
    rewrite !Rleb_true by lra. reflexivity. }
  unfold walk_step. cbn [py_index nth_error bind fst length Nat.sub Nat.eqb negb].
  rewrite orb_true_r. unfold x_range_of, mask_index.
  rewrite (select_all _ x Hmask x eq_refl), (select_all _ x Hmask theta (eq_sym Hlen)).
  assert (Hx2 : (1 < length x)%nat) by (apply (two_members x v1 v2 Hv1 Hv2); lra).
  apply Nat.ltb_lt in Hx2. rewrite Hx2.
  rewrite length_map, <- Hlen, Nat.eqb_refl. cbn [bind].
  eexists. split; [reflexivity |]. cbn [w_cluster w_cluster_theta].
  now rewrite Hc0, Ht0.
Qed.

(** A ring whose radii occupy exactly two neighbouring histogram bins,
    with as many angles as radii: when two of the angles are opposed,
    [clustering] returns one cluster, made of all the radii and of an
    opposed pair of angles; when no two angles are opposed it returns
    [None]. *)
Theorem clustering_two_neighbouring_bins (x theta : list R) (j : nat) :
  (S j < 99)%nat ->
  Forall (fun v => bins j <= v < bins (S (S j))) x ->
  Exists (fun v => v < bins (S j)) x ->
  Exists (fun v => bins (S j) <= v) x ->
  length x = length theta ->
  ((exists i1 i2 theta1 theta2,
       (i1 < i2)%nat /\ nth_error theta i1 = Some theta1 /\ nth_error theta i2 = Some theta2 /\
       Rabs (PI - Rabs (theta1 - theta2)) < 0.1) ->
   exists theta1 theta2,
     clustering x theta = Ok (Some ([x], [[theta1; theta2]]))
     /\ Rabs (PI - Rabs (theta1 - theta2)) < 0.1)
  /\ ((forall i1 i2 theta1 theta2,
         (i1 < i2)%nat -> nth_error theta i1 = Some theta1 -> nth_error theta i2 = Some theta2 ->
         ~ Rabs (PI - Rabs (theta1 - theta2)) < 0.1) ->
      clustering x theta = Ok None).
Proof.
  intros Hj Hall Hlow Hhigh Hlen.
  destruct (walk_two_bins x theta j Hj Hall Hlow Hhigh Hlen) as (st & Hwalk & Hc & Ht).
  rewrite (clustering_after_walk x theta st Hwalk), Hc, Ht. cbn [map select].
  destruct (judge_spec theta) as (Hiff & Hlast & _).
  split.
  - intros (i1 & i2 & theta1 & theta2 & Hlt & H1 & H2 & Hk).
    assert (Hv : fst (judge theta) = true).
    { apply Hiff. exists (theta1, theta2). split.
      - apply combinations2_pairs. now exists i1, i2.
      - now apply opposed_iff. }
    destruct (Hlast Hv) as (pre & [t1 t2] & post & _ & Hopp & _ & Hsnd).
    exists t1, t2. rewrite Hv, Hsnd. cbn [length Nat.eqb fst snd].
    split; [reflexivity | now apply opposed_iff in Hopp].
  - intros Hnone.
    destruct (fst (judge theta)) eqn:Hv; [| reflexivity].
    destruct (proj1 Hiff eq_refl) as ([t1 t2] & Hin & Hopp).
    apply combinations2_pairs in Hin as (i1 & i2 & Hlt & H1 & H2).
    apply opposed_iff in Hopp. now destruct (Hnone i1 i2 t1 t2 Hlt H1 H2).
Qed.

Lemma clustering_two_neighbouring_bins_witness :
  exists theta1 theta2,
    clustering [300; 306] [0; PI] = Ok (Some ([[300; 306]], [[theta1; theta2]]))
    /\ Rabs (PI - Rabs (theta1 - theta2)) < 0.1.
Proof.
  assert (Hj : (S 60 < 99)%nat) by lia.
  assert (Hall : Forall (fun v => bins 60 <= v < bins (S (S 60))) [300; 306]).
  { repeat constructor; lit. }
  assert (Hlow : Exists (fun v => v < bins (S 60)) [300; 306]).
  { left. lit. }
  assert (Hhigh : Exists (fun v => bins (S 60) <= v) [300; 306]).
  { right. left. lit. }
  apply (proj1 (clustering_two_neighbouring_bins [300; 306] [0; PI] 60 Hj Hall Hlow Hhigh
                  eq_refl)).
  exists 0%nat, 1%nat, 0, PI. repeat split; [lia |].
  apply opposed_iff with (k := (0, PI)). exact opposed_0_PI.
Defined.

(** * The two-pass scheme *)

Lemma u_of_linearize (smp : R * R) : u_of smp = linearize (snd smp).
Proof. unfold u_of, linearize. now replace (snd smp ^ 2) with (snd smp * snd smp) by ring. Qed.

Lemma points_fst (samples : list (R * R)) :
  map fst (points_of samples) = map linearize (map snd samples).
Proof.
  unfold points_of. rewrite !map_map. apply map_ext. intros smp. apply u_of_linearize.
Qed.

Lemma points_snd (samples : list (R * R)) :
  map snd (points_of samples) = map fst samples.
Proof. unfold points_of. now rewrite map_map. Qed.

Lemma residuals2_sse (points : list (R * R)) (m c : R) :
  residuals2 points m c = sse (map fst points) (map snd points) m c.
Proof.
  induction points as [| p ps IH]; cbn [residuals2 map sse]; [reflexivity |].
  now rewrite IH.
Qed.

(** What [polyfit] returns satisfies the normal equations of a system of
    full rank. *)
Lemma normal_equations (us xs : list R) (m c : R) :
  polyfit us xs = Ok (m, c) ->
  length us = length xs
  /\ 0 < INR (length us)
  /\ 0 < INR (length us) * dot us us - sum us * sum us
  /\ m * dot us us + c * sum us = dot us xs
  /\ m * sum us + INR (length us) * c = sum xs.
Proof.
  intros H. apply polyfit_inv in H as (Hlen & Hne & Hdet & Hm & Hc).
  assert (Hn : 0 < INR (length us)).
  { apply lt_0_INR. destruct us; [contradiction | cbn; lia]. }
  assert (N2 : m * sum us + INR (length us) * c = sum xs).
  { rewrite Hc. field. lra. }
  assert (N1 : m * dot us us + c * sum us = dot us xs).
  { assert (E : INR (length us) * (m * dot us us + c * sum us)
                = INR (length us) * dot us xs).
    { replace (INR (length us) * (m * dot us us + c * sum us))
        with (m * (INR (length us) * dot us us - sum us * sum us)
              + sum us * (m * sum us + INR (length us) * c)) by ring.
      rewrite N2, Hm. field. exact Hdet. }
    apply Rmult_eq_reg_l in E; [exact E | lra]. }
  pose proof (cauchy_sums us). repeat split; try assumption. lra.
Qed.

(** How much worse another line is: a sum of squares. *)
Lemma sse_gap (us xs : list R) (m c m' c' : R) :
  polyfit us xs = Ok (m, c) ->
  sse us xs m' c' - sse us xs m c
  = dot us us * (m' - m) ^ 2 + 2 * sum us * (m' - m) * (c' - c)
    + INR (length us) * (c' - c) ^ 2.
Proof.
  intros H. apply normal_equations in H as (Hlen & _ & _ & N1 & N2).
  rewrite !sse_expand by assumption. rewrite <- N1, <- N2. ring.
Qed.

Lemma polyfit_unique (us xs : list R) (m c m' c' : R) :
  polyfit us xs = Ok (m, c) ->
  sse us xs m' c' <= sse us xs m c -> m' = m /\ c' = c.
Proof.
  intros H Hle. pose proof (sse_gap us xs m c m' c' H) as Hgap.
  apply normal_equations in H as (_ & Hn & Hdet & _ & _).
  assert (HQ : dot us us * (m' - m) ^ 2 + 2 * sum us * (m' - m) * (c' - c)
               + INR (length us) * (c' - c) ^ 2 <= 0) by lra.
  clear Hgap Hle.
  generalize dependent (INR (length us)). intros n Hn.
  generalize dependent (dot us us). intros sxx.
  generalize dependent (sum us). intros sx Hdet HQ.
  assert (Hd : m' - m = 0 /\ c' - c = 0); [| lra].
  generalize dependent (m' - m). intros dm.
  generalize dependent (c' - c). intros dc HQ.
  assert (Hq : n * (sxx * dm ^ 2 + 2 * sx * dm * dc + n * dc ^ 2)
               = (n * dc + sx * dm) ^ 2 + (n * sxx - sx * sx) * dm ^ 2) by ring.
  pose proof (pow2_ge_0 (n * dc + sx * dm)) as H1.
  pose proof (pow2_ge_0 dm) as H2.
  assert (H3 : n * (sxx * dm ^ 2 + 2 * sx * dm * dc + n * dc ^ 2) <= 0) by nra.
  assert (H4 : (n * sxx - sx * sx) * dm ^ 2 <= 0) by lra.
  assert (H5 : dm ^ 2 = 0) by nra.
  assert (Hdm : dm = 0) by nra.
  subst dm. split; [reflexivity |].
  assert (H6 : (n * dc) ^ 2 <= 0).
  { replace (n * dc + sx * 0) with (n * dc) in Hq, H1 by ring. nra. }
  pose proof (pow2_ge_0 (n * dc)) as H7.
  assert (E : (n * dc) * (n * dc) = 0) by lra.
  apply Rmult_integral in E. assert (E' : n * dc = 0) by tauto.
  apply Rmult_integral in E'. destruct E' as [E' | E']; [lra | exact E'].
Qed.

Lemma polyfit_least_squares_line (points : list (R * R)) (m c : R) :
  polyfit (map fst points) (map snd points) = Ok (m, c) ->
  least_squares_line points m c.
Proof.
  intros H. split; intros m' c'; rewrite !residuals2_sse.
  - now apply polyfit_least_squares.
  - now apply polyfit_unique.
Qed.

Lemma reseed_retained (r0 i0 : R) : forall points : list (R * R),
  reseed (outlier_mask r0 i0 (map fst points) (map snd points)) (map fst points)
  = map fst ((0, 0) :: retained r0 i0 points)
  /\ reseed (outlier_mask r0 i0 (map fst points) (map snd points)) (map snd points)
     = map snd ((0, 0) :: retained r0 i0 points).
Proof.
  unfold reseed, outlier_mask, retained. intros points. cbn [map fst snd].
  enough (H : select (map negb (map (fun p => Rltb 50 (Rabs (r0 * fst p + i0 - snd p)))
                                    (combine (map fst points) (map snd points))))
                     (map fst points)
              = map fst (filter (fun p => negb (Rltb 50 (Rabs (r0 * fst p + i0 - snd p))))
                                points)
              /\ select (map negb (map (fun p => Rltb 50 (Rabs (r0 * fst p + i0 - snd p)))
                                       (combine (map fst points) (map snd points))))
                        (map snd points)
                 = map snd (filter (fun p => negb (Rltb 50 (Rabs (r0 * fst p + i0 - snd p))))
                                   points)).
  { destruct H as [-> ->]. now split. }
  induction points as [| [u v] points [IHu IHv]]; [now split |].
  cbn [map combine select filter fst snd].
  destruct (Rltb 50 (Rabs (r0 * u + i0 - v))); cbn [negb map fst snd];
    rewrite IHu, IHv; split; reflexivity.
Qed.

(** When the fit returns, it returns what the two passes give. *)
Lemma fit_ok_two_pass (samples : list (R * R)) (r i : R) :
  fit_xs_and_sinthetas (map fst samples) (map snd samples) = Ok (r, i) ->
  two_pass_result samples r i.
Proof.
  unfold fit_xs_and_sinthetas. rewrite <- (points_fst samples), <- (points_snd samples).
  intros H. apply bind_ok in H as ([r0 i0] & H1 & H2).
  apply polyfit_array_ok in H1 as [_ H1].
  exists r0, i0. split; [now apply polyfit_least_squares_line |].
  destruct (reseed_retained r0 i0 (points_of samples)) as [Eu Ex].
  rewrite Eu, Ex in H2. now apply polyfit_least_squares_line.
Qed.

Lemma sq_dist_pos (v w : R) (l : list R) :
  In w l -> w <> v -> 0 < sse l (map (fun _ => 0) l) (-1) v.
Proof.
  induction l as [| y l IH]; [contradiction |].
  intros [-> | Hin] Hw; cbn [map sse].
  - pose proof (sse_nonneg (-1) v l (map (fun _ => 0) l)).
    assert (0 < (-1 * w + v - 0) ^ 2) by (apply pow_lt_0 || nra). lra.
  - specialize (IH Hin Hw). pose proof (pow2_ge_0 (-1 * y + v - 0)). lra.
Qed.

Lemma det_cons (v : R) (l : list R) :
  INR (length (v :: l)) * dot (v :: l) (v :: l) - sum (v :: l) * sum (v :: l)
  = (INR (length l) * dot l l - sum l * sum l) + sse l (map (fun _ => 0) l) (-1) v.
Proof.
  change (length (v :: l)) with (S (length l)). rewrite S_INR. cbn [dot sum].
  rewrite sse_expand by (now rewrite length_map).
  assert (Hz1 : dot l (map (fun _ => 0) l) = 0).
  { clear. induction l as [| u l IH]; cbn; [reflexivity | rewrite IH; ring]. }
  assert (Hz2 : sum (map (fun _ => 0) l) = 0).
  { clear. induction l as [| u l IH]; cbn; [reflexivity | rewrite IH; ring]. }
  assert (Hz3 : dot (map (fun _ => 0) l) (map (fun _ => 0) l) = 0).
  { clear. induction l as [| u l IH]; cbn; [reflexivity | rewrite IH; ring]. }
  rewrite Hz1, Hz2, Hz3. ring.
Qed.

(** Abscissas that are not all equal make the system full rank. *)
Lemma full_rank_distinct (l : list R) :
  (exists v w, In v l /\ In w l /\ v <> w) ->
  0 < INR (length l) * dot l l - sum l * sum l.
Proof.
  induction l as [| y l IH]; intros (v & w & Hv & Hw & Hne); [contradiction |].
  rewrite det_cons. pose proof (cauchy_sums l) as Hc.
  pose proof (sse_nonneg (-1) y l (map (fun _ => 0) l)) as Hs.
  destruct Hv as [<- | Hv], Hw as [<- | Hw].
  - contradiction.
  - pose proof (sq_dist_pos y w l Hw ltac:(congruence)). lra.
  - pose proof (sq_dist_pos y v l Hv Hne). lra.
  - assert (0 < INR (length l) * dot l l - sum l * sum l) by (apply IH; eauto). lra.
Qed.

Lemma dot_pos_member (l : list R) (v : R) : In v l -> v <> 0 -> 0 < dot l l.
Proof.
  induction l as [| y l IH]; [contradiction |].
  pose proof (dot_self_nonneg l).
  intros [-> | Hin] Hv; cbn [dot].
  - assert (0 < v * v) by nra. lra.
  - specialize (IH Hin Hv). nra.
Qed.

(** When the fit does return. *)
Lemma fit_returns (samples : list (R * R)) :
  Forall (fun smp => snd smp * snd smp < 1) samples ->
  (exists p q, In p samples /\ In q samples /\ u_of p <> u_of q) ->
  (forall rprime0 intercept0,
     least_squares_line (points_of samples) rprime0 intercept0 ->
     exists p, In p (retained rprime0 intercept0 (points_of samples)) /\ fst p <> 0) ->
  exists r i, fit_xs_and_sinthetas (map fst samples) (map snd samples) = Ok (r, i).
Proof.
  intros Hfin (p & q & Hp & Hq & Hpq) Hkeep.
  unfold fit_xs_and_sinthetas.
  rewrite (proj2 (all_finite_iff (map snd samples))).
  2:{ apply Forall_map. eapply Forall_impl; [| exact Hfin]. intros smp H.
      now replace (snd smp ^ 2) with (snd smp * snd smp) by ring. }
  cbn [polyfit_array]. rewrite <- (points_fst samples), <- (points_snd samples).
  set (points := points_of samples) in *.
  assert (Hdet : 0 < INR (length (map fst points)) * dot (map fst points) (map fst points)
                     - sum (map fst points) * sum (map fst points)).
  { apply full_rank_distinct. exists (u_of p), (u_of q).
    unfold points, points_of. rewrite map_map. cbn [fst].
    repeat split; [now apply in_map | now apply in_map | exact Hpq]. }
  assert (Hne : map fst points <> []).
  { intros E. rewrite E in Hdet. cbn in Hdet. lra. }
  destruct (polyfit (map fst points) (map snd points)) as [[r0 i0] | e |] eqn:E1.
  2,3: exfalso;
       erewrite polyfit_ok in E1; [discriminate E1 | now rewrite !length_map | exact Hne
                                   | lra | reflexivity | reflexivity].
  cbn [bind].
  destruct (Hkeep r0 i0 (polyfit_least_squares_line points r0 i0 E1)) as (k & Hk & Hk0).
  destruct (reseed_retained r0 i0 points) as [-> ->].
  set (kept := retained r0 i0 points) in *. cbn [map fst snd].
  assert (Hpos : 0 < dot (map fst kept) (map fst kept)).
  { apply (dot_pos_member _ (fst k)); [now apply in_map | exact Hk0]. }
  pose proof (seeded_full_rank (map fst kept) Hpos) as Hdet2.
  eexists. eexists. apply polyfit_ok.
  - cbn [length]. now rewrite !length_map.
  - discriminate.
  - lra.
  - reflexivity.
  - reflexivity.
Qed.

(** C7, as the code has it.  Whenever [fit_xs_and_sinthetas] returns,
    both fits being of full rank, it returns the result of the two-pass
    scheme: with
    u = sin(theta) / sqrt(1 - sin(theta)^2) per sample, (r0, i0) the
    least-squares line of x against u, the samples with
    |r0 u + i0 - x| > 50 discarded and only those, and (u = 0, x = 0) put
    at the head of what is retained, it returns the least-squares line of
    that.  It does return when every sine has absolute value below 1,
    the u are not all equal, and some retained sample has u other than 0.
    It does not return on every input: a sine of absolute value 1 or more
    makes it raise [LinAlgError]. *)
Theorem fit_is_two_pass (samples : list (R * R)) :
  (forall r i,
     fit_xs_and_sinthetas (map fst samples) (map snd samples) = Ok (r, i) ->
     two_pass_result samples r i)
  /\ (Forall (fun smp => snd smp * snd smp < 1) samples ->
      (exists p q, In p samples /\ In q samples /\ u_of p <> u_of q) ->
      (forall rprime0 intercept0,
         least_squares_line (points_of samples) rprime0 intercept0 ->
         exists p, In p (retained rprime0 intercept0 (points_of samples)) /\ fst p <> 0) ->
      exists r i,
        fit_xs_and_sinthetas (map fst samples) (map snd samples) = Ok (r, i)
        /\ two_pass_result samples r i)
  /\ (Exists (fun smp => 1 <= snd smp * snd smp) samples ->
      fit_xs_and_sinthetas (map fst samples) (map snd samples) = Raise LinAlgError).
Proof.
  split; [intros r i; apply fit_ok_two_pass |]. split.
  - intros Hfin Hdist Hkeep.
    destruct (fit_returns samples Hfin Hdist Hkeep) as (r & i & H).
    exists r, i. split; [exact H | now apply fit_ok_two_pass].
  - intros Hbad. apply fit_raises_linalg.
    + intros E. apply map_eq_nil in E. subst. inversion Hbad.
    + now rewrite !length_map.
    + left. apply Exists_exists in Hbad as (smp & Hin & Hs).
      apply Exists_exists. exists (snd smp). split; [now apply in_map |].
      now replace (snd smp ^ 2) with (snd smp * snd smp) by ring.
Qed.

Lemma points_off_origin :
  points_of [(0, 0); (200, 5 / 13); (240, 4 / 5)]
  = [(0, 0); (5 / 12, 200); (4 / 3, 240)].
Proof.
  unfold points_of. cbn [map]. rewrite !u_of_linearize. cbn [fst snd].
  now rewrite linearize_0, linearize_5_13, linearize_4_5.
Qed.

Lemma first_line_off_origin (rprime0 intercept0 : R) :
  least_squares_line [(0, 0); (5 / 12, 200); (4 / 3, 240)] rprime0 intercept0 ->
  rprime0 = 10560 / 67 /\ intercept0 = 11000 / 201.
Proof.
  intros [Hmin _].
  assert (Hfit : polyfit (map fst [(0, 0); (5 / 12, 200); (4 / 3, 240)])
                         (map snd [(0, 0); (5 / 12, 200); (4 / 3, 240)])
                 = Ok (10560 / 67, 11000 / 201)).
  { cbn [map fst snd].
    apply polyfit_ok; try reflexivity; try discriminate; cbn [length dot sum INR]; lra. }
  apply polyfit_least_squares_line in Hfit as [_ Huniq].
  apply Huniq, Hmin.
Qed.

Lemma retained_off_origin :
  retained (10560 / 67) (11000 / 201) [(0, 0); (5 / 12, 200); (4 / 3, 240)]
  = [(4 / 3, 240)].
Proof.
  unfold retained. cbn [filter fst snd].
  rewrite (Rltb_true 50 (Rabs (10560 / 67 * 0 + 11000 / 201 - 0)))
    by (unfold Rabs; destruct Rcase_abs; lra).
  rewrite (Rltb_true 50 (Rabs (10560 / 67 * (5 / 12) + 11000 / 201 - 200)))
    by (unfold Rabs; destruct Rcase_abs; lra).
  rewrite (Rltb_false 50 (Rabs (10560 / 67 * (4 / 3) + 11000 / 201 - 240)))
    by (unfold Rabs; destruct Rcase_abs; lra).
  reflexivity.
Qed.

Lemma fit_is_two_pass_witness :
  (fit_xs_and_sinthetas (map fst [(0, 0); (200, 5 / 13); (240, 4 / 5)])
                        (map snd [(0, 0); (200, 5 / 13); (240, 4 / 5)]) = Ok (180, 0)
   /\ two_pass_result [(0, 0); (200, 5 / 13); (240, 4 / 5)] 180 0)
  /\ (exists r i,
        fit_xs_and_sinthetas (map fst [(0, 0); (200, 5 / 13); (240, 4 / 5)])
                             (map snd [(0, 0); (200, 5 / 13); (240, 4 / 5)]) = Ok (r, i)
        /\ two_pass_result [(0, 0); (200, 5 / 13); (240, 4 / 5)] r i)
  /\ fit_xs_and_sinthetas (map fst [(0, 0); (150, 0.6); (300, 1)])
                          (map snd [(0, 0); (150, 0.6); (300, 1)]) = Raise LinAlgError.
Proof.
  split; [| split].
  - split; [exact fit_off_origin |].
    exact (proj1 (fit_is_two_pass [(0, 0); (200, 5 / 13); (240, 4 / 5)]) 180 0
             fit_off_origin).
  - apply (proj1 (proj2 (fit_is_two_pass [(0, 0); (200, 5 / 13); (240, 4 / 5)]))).
    + repeat constructor; cbn [snd]; lra.
    + exists (0, 0), (200, 5 / 13). repeat split; [now left | right; now left |].
      rewrite !u_of_linearize. cbn [snd]. rewrite linearize_0, linearize_5_13. lra.
    + intros r0 i0. rewrite points_off_origin. intros Hline.
      destruct (first_line_off_origin r0 i0 Hline) as [-> ->].
      rewrite retained_off_origin. exists (4 / 3, 240).
      split; [now left | cbn [fst]; lra].
  - apply (proj2 (proj2 (fit_is_two_pass [(0, 0); (150, 0.6); (300, 1)]))).
    right. right. left. cbn [snd]. lra.
Defined.

(** C7 as stated fails: on the samples (0, 0), (150, 0.6), (300, 1) the
    last u is 1/0, [np.polyfit] raises [LinAlgError] and nothing is
    returned. *)
Lemma fit_not_on_every_input :
  ~ (forall samples : list (R * R),
       exists r i,
         fit_xs_and_sinthetas (map fst samples) (map snd samples) = Ok (r, i)
         /\ two_pass_result samples r i).
Proof.
  intros H. destruct (H [(0, 0); (150, 0.6); (300, 1)]) as (r & i & Hfit & _).
  cbn [map fst snd] in Hfit.
  rewrite (fit_raises_linalg [0; 150; 300] [0; 0.6; 1]) in Hfit.
  - discriminate Hfit.
  - discriminate.
  - reflexivity.
  - left. right. right. left. lra.
Qed.

(** * The number of samples *)

Lemma collected_usable (bt : base_type) (imgs : list image) :
  length (collected bt imgs) = length (filter (usable bt) imgs).
Proof.
  unfold collected, usable. induction imgs as [| img imgs IH]; [reflexivity |].
  cbn [flat_map filter]. rewrite length_app, IH.
  destruct (image_sample bt img) as [[smp |] | e |]; reflexivity.
Qed.

Lemma collected_none (bt : base_type) (imgs : list image) :
  Forall (fun img => image_sample bt img = Ok None) imgs -> collected bt imgs = [].
Proof.
  unfold collected. induction 1 as [| img imgs Himg _ IH]; [reflexivity |].
  cbn [flat_map]. now rewrite Himg, IH.
Qed.

(** A run that gets through its images hands the fit the seed and the
    samples it collected, in order. *)
Lemma image_loop_collected (bt : base_type) (imgs : list image) :
  forall xs0 ss0 xs ss,
    image_loop bt (xs0, ss0) imgs = Ok (xs, ss) ->
    xs = xs0 ++ map fst (collected bt imgs) /\ ss = ss0 ++ map snd (collected bt imgs).
Proof.
  unfold collected.
  induction imgs as [| img imgs IH]; intros xs0 ss0 xs ss H; cbn [image_loop] in H.
  - injection H as <- <-. cbn. now rewrite !app_nil_r.
  - apply bind_ok in H as ([xs1 ss1] & Hstep & H).
    rewrite image_step_sample in Hstep.
    apply bind_ok in Hstep as (r & Hr & Hacc). injection Hacc as Hacc.
    apply IH in H as [-> ->]. cbn [flat_map]. rewrite Hr, !map_app.
    destruct r as [[x s] |]; injection Hacc as <- <-; cbn [map fst snd app].
    + now rewrite <- !app_assoc.
    + now split.
Qed.

(** The seed alone: a column of zeros, on which [np.polyfit] fails. *)
Lemma fit_seed_only : fit_xs_and_sinthetas [0] [0] = Raise LinAlgError.
Proof.
  apply fit_raises_linalg; [discriminate | reflexivity |].
  right. now constructor.
Qed.

(** C2, as the code has it.  [calc_rprime] has no check on the number of
    samples and no error of its own for too few of them: when the loop
    over the images completes, the fit receives the seed followed by one
    point per usable image, and the outcome of the run is the outcome of
    that fit.  With no usable image the fit is given the seed alone and
    [np.polyfit] raises [LinAlgError]: the run fails and returns no
    slope.  With exactly one usable image, of sample (x, sin theta) with
    0 < sin theta < 1, the run raises nothing and returns the slope x / u,
    u = sin theta / sqrt(1 - sin theta^2). *)
Theorem calc_rprime_few_samples :
  (forall bt imgs xs sinthetas,
     image_loop bt ([0], [0]) imgs = Ok (xs, sinthetas) ->
     xs = 0 :: map fst (collected bt imgs)
     /\ sinthetas = 0 :: map snd (collected bt imgs)
     /\ length (collected bt imgs) = length (filter (usable bt) imgs)
     /\ calc_rprime bt imgs
        = ('(rprime, intercept) <-
             fit_xs_and_sinthetas (0 :: map fst (collected bt imgs))
                                  (0 :: map snd (collected bt imgs)) ;;
           Ok rprime))
  /\ (forall bt imgs,
        Forall (fun img => image_sample bt img = Ok None) imgs ->
        calc_rprime bt imgs = Raise LinAlgError)
  /\ (forall bt pre post img x s,
        Forall (fun i => image_sample bt i = Ok None) pre ->
        image_sample bt img = Ok (Some (x, s)) ->
        Forall (fun i => image_sample bt i = Ok None) post ->
        0 < s < 1 ->
        calc_rprime bt (pre ++ img :: post) = Ok (x / linearize s)).
Proof.
  split; [| split].
  - intros bt imgs xs ss H.
    pose proof (image_loop_collected bt imgs [0] [0] xs ss H) as [Hx Hs].
    cbn [app] in Hx, Hs. repeat split; try assumption.
    + apply collected_usable.
    + unfold calc_rprime. rewrite H. cbn [bind]. now rewrite Hx, Hs.
  - intros bt imgs Hnone. unfold calc_rprime.
    rewrite (image_loop_skipped bt imgs _ Hnone). cbn [bind].
    now rewrite fit_seed_only.
  - intros bt pre post img x s. apply one_sample_slope.
Qed.

Lemma calc_rprime_few_samples_witness :
  (image_loop {| bt_kind := Ag; bt_surface := S110 |} ([0], [0]) [blank_image; ring_image]
   = Ok ([0; median [300; 306]], [0; 1 * sqrt (150.4 / 150.4) / a Ag])
   /\ length (collected {| bt_kind := Ag; bt_surface := S110 |} [blank_image; ring_image])
      = length (filter (usable {| bt_kind := Ag; bt_surface := S110 |})
                       [blank_image; ring_image]))
  /\ calc_rprime {| bt_kind := Ag; bt_surface := S110 |} [blank_image] = Raise LinAlgError
  /\ calc_rprime {| bt_kind := Ag; bt_surface := S110 |} ([blank_image] ++ ring_image :: [])
     = Ok (median [300; 306] / linearize (1 * sqrt (150.4 / 150.4) / a Ag)).
Proof.
  split; [| split].
  - split; [exact image_loop_blank_ring |].
    exact (proj1 (proj2 (proj2 (proj1 calc_rprime_few_samples _ [blank_image; ring_image]
                                    _ _ image_loop_blank_ring)))).
  - apply (proj1 (proj2 calc_rprime_few_samples)).
    constructor; [reflexivity | constructor].
  - apply (proj2 (proj2 calc_rprime_few_samples) _ [blank_image] [] ring_image).
    + constructor; [reflexivity | constructor].
    + exact ring_image_sample_Ag.
    + constructor.
    + exact ring_image_sintheta_Ag.
Defined.
